(** * A model of the mini-vue3 reactivity core

    The development embeds the two source modules of the package
    [@mini-vue3/reactivity]:

    - [reactive.ts]: [reactive] and the [get]/[set] handlers of the proxy;
    - [effect.ts]: [ReactiveEffect] with [run] and [stop], [effect],
      [track], [trigger] and [cleanupEffect].

    The library code is written as functions over an explicit [state] that
    holds what the modules keep in module-level variables ([targetMap],
    [reactiveMap], [activeEffect]) together with the objects they allocate
    ([Set]s of effects, [ReactiveEffect] instances, proxies).  User
    callbacks (the [fn] and [scheduler] of an effect) are terms of a small
    client language; the library functions that call back into user code
    take the caller [call] as a parameter, and [eval] ties the knot with a
    bound on the depth of the call stack.  Of the console output only the
    record that [track] prints for each collected dependency is kept
    ([collected]); the other [console.log] calls are left out. *)

From stdpp Require Import base option list gmap strings.
From Stdlib Require Import ZArith Lia.

Local Open Scope Z_scope.
Local Open Scope nat_scope.

(** ** Values *)

Inductive value : Type :=
| VUndefined
| VNull
| VBool (b : bool)
| VNum (n : Z)
| VNaN
| VStr (s : string)
| VObj (o : nat)        (* a plain object, by reference *)
| VProxy (p : nat)      (* a proxy made by [reactive], by reference *)
| VRunner (e : nat).    (* the bound [run] returned by [effect] *)

(** JavaScript truthiness, as used by [!target], [if (existingProxy)],
    [if (effect.scheduler)] and the conditionals of client code. *)
Definition truthy (v : value) : bool :=
  match v with
  | VUndefined | VNull | VNaN => false
  | VBool b => b
  | VNum n => negb (Z.eqb n 0)
  | VStr s => negb (String.eqb s "")
  | VObj _ | VProxy _ | VRunner _ => true
  end.

(** [typeof v === 'object'] *)
Definition typeof_object (v : value) : bool :=
  match v with
  | VNull | VObj _ | VProxy _ => true
  | _ => false
  end.

(** [a === b]: equality of primitives, identity of references, and [NaN]
    different from itself. *)
Definition strict_eq (a b : value) : bool :=
  match a, b with
  | VUndefined, VUndefined => true
  | VNull, VNull => true
  | VBool x, VBool y => Bool.eqb x y
  | VNum x, VNum y => Z.eqb x y
  | VStr x, VStr y => String.eqb x y
  | VObj x, VObj y => Nat.eqb x y
  | VProxy x, VProxy y => Nat.eqb x y
  | VRunner x, VRunner y => Nat.eqb x y
  | _, _ => false
  end.

(** ** Client code

    The bodies of effects and schedulers, and the program that uses the
    library.  Pure computations on values are Rocq functions ([Op1],
    [Op2]); the other forms are the ways client code can reach the library
    or its own closure variables. *)

Inductive term : Type :=
| Lit (v : value)
| Var (x : string)                               (* read a closure variable *)
| Assign (x : string) (t : term)                 (* x = t *)
| Op1 (f : value → value) (t : term)
| Op2 (f : value → value → value) (t1 t2 : term)
| Seq (t1 t2 : term)                             (* t1; t2 *)
| If (c t1 t2 : term)
| Throw (t : term)
| NewObj (props : gmap string value)             (* an object literal *)
| Get (o : term) (k : string)                    (* o.k *)
| Put (o : term) (k : string) (t : term)         (* o.k = t *)
| Reactive (t : term)                            (* reactive(t) *)
| Effect (body : term)                           (* effect(() => body) *)
| NewEffect (body : term)                        (* new ReactiveEffect(() => body) *)
| NewScheduled (body sched : term)               (* new ReactiveEffect(() => body, () => sched) *)
| Run (e : nat)                                  (* runner() / e.run() *)
| Stop (e : nat).                                (* runner.effect.stop() *)

(** ** The heap of the library *)

(** class ReactiveEffect: the fields [active], [deps], [fn], [scheduler].
    An entry of [deps] is a reference to a [Dep] (a [Set] of effects). *)
Record ReactiveEffect : Type := mkEffect {
  active : bool;
  deps : list nat;
  fn : term;
  scheduler : option term
}.

(** What [trigger] did with a subscriber of its snapshot. *)
Inductive event : Type :=
| Ran (e : nat)          (* effect.run() *)
| Scheduled (e : nat).   (* effect.scheduler() *)

Record state : Type := mkState {
  heap : list (gmap string value);        (* the plain objects *)
  proxies : list nat;                     (* proxy reference ↦ its target *)
  reactiveMap : gmap nat nat;             (* WeakMap: target ↦ proxy *)
  targetMap : gmap nat (gmap string nat); (* WeakMap: target ↦ Map: key ↦ Dep *)
  sets : list (list nat);                 (* the Dep objects, each in insertion order *)
  effects : list ReactiveEffect;          (* the ReactiveEffect instances *)
  activeEffect : option nat;              (* let activeEffect *)
  vars : gmap string value;               (* closure variables of client code *)
  collected : list (nat * string * nat);  (* what [track] printed: target, key, effect *)
  fired : list event                      (* ghost: the calls made by [trigger], oldest first *)
}.

Definition empty_state : state :=
  mkState [] [] ∅ ∅ [] [] None ∅ [] [].

Definition set_heap (h : list (gmap string value)) (st : state) : state :=
  mkState h (proxies st) (reactiveMap st) (targetMap st) (sets st)
          (effects st) (activeEffect st) (vars st) (collected st) (fired st).

Definition set_proxies (ps : list nat) (rm : gmap nat nat) (st : state) : state :=
  mkState (heap st) ps rm (targetMap st) (sets st)
          (effects st) (activeEffect st) (vars st) (collected st) (fired st).

Definition set_targetMap (tm : gmap nat (gmap string nat)) (st : state) : state :=
  mkState (heap st) (proxies st) (reactiveMap st) tm (sets st)
          (effects st) (activeEffect st) (vars st) (collected st) (fired st).

Definition set_sets (ss : list (list nat)) (st : state) : state :=
  mkState (heap st) (proxies st) (reactiveMap st) (targetMap st) ss
          (effects st) (activeEffect st) (vars st) (collected st) (fired st).

Definition set_effects (es : list ReactiveEffect) (st : state) : state :=
  mkState (heap st) (proxies st) (reactiveMap st) (targetMap st) (sets st)
          es (activeEffect st) (vars st) (collected st) (fired st).

Definition set_activeEffect (a : option nat) (st : state) : state :=
  mkState (heap st) (proxies st) (reactiveMap st) (targetMap st) (sets st)
          (effects st) a (vars st) (collected st) (fired st).

Definition set_vars (vs : gmap string value) (st : state) : state :=
  mkState (heap st) (proxies st) (reactiveMap st) (targetMap st) (sets st)
          (effects st) (activeEffect st) vs (collected st) (fired st).

Definition log_collected (target : nat) (key : string) (e : nat) (st : state) : state :=
  mkState (heap st) (proxies st) (reactiveMap st) (targetMap st) (sets st)
          (effects st) (activeEffect st) (vars st)
          (collected st ++ [(target, key, e)]) (fired st).

Definition log_event (ev : event) (st : state) : state :=
  mkState (heap st) (proxies st) (reactiveMap st) (targetMap st) (sets st)
          (effects st) (activeEffect st) (vars st) (collected st) (fired st ++ [ev]).

(** ** Outcomes *)

Inductive outcome : Type :=
| Ret (v : value)
| Thrown (v : value).

(** [None] stands for a call stack deeper than the bound given to [eval]. *)
Definition result : Type := option (outcome * state).

Definition and_then (r : result) (k : value → state → result) : result :=
  match r with
  | Some (Ret v, st) => k v st
  | Some (Thrown x, st) => Some (Thrown x, st)
  | None => None
  end.

Definition TypeError : value := VStr "TypeError".

(** ** effect.ts: the dependency graph *)

(** [dep.has(e)] for the Dep at reference [dep]. *)
Definition dep_has (dep e : nat) (st : state) : bool :=
  match sets st !! dep with
  | Some s => bool_decide (e ∈ s)
  | None => false
  end.

(** The last step of [track]: [if (!dep.has(e)) { dep.add(e); e.deps.push(dep) }] *)
Definition subscribe (dep e : nat) (st : state) : state :=
  if dep_has dep e st then st
  else
    set_effects
      (alter (λ eff, mkEffect (active eff) (deps eff ++ [dep]) (fn eff) (scheduler eff))
             e (effects st))
      (set_sets (alter (λ s, s ++ [e]) dep (sets st)) st).

(** export function track(target, key) *)
Definition track (target : nat) (key : string) (st : state) : state :=
  match activeEffect st with
  | None => st
  | Some e =>
      let st0 := log_collected target key e st in
      let st1 :=
        match targetMap st0 !! target with
        | Some _ => st0
        | None => set_targetMap (<[target := ∅]> (targetMap st0)) st0
        end in
      let depsMap := default ∅ (targetMap st1 !! target) in
      let '(dep, st2) :=
        match depsMap !! key with
        | Some dep => (dep, st1)
        | None =>
            let dep := length (sets st1) in
            (dep, set_targetMap (<[target := <[key := dep]> depsMap]> (targetMap st1))
                    (set_sets (sets st1 ++ [[]]) st1))
        end in
      subscribe dep e st2
  end.

(** function cleanupEffect(effect) *)
Definition cleanupEffect (e : nat) (st : state) : state :=
  match effects st !! e with
  | None => st
  | Some eff =>
      match deps eff with
      | [] => st
      | ds =>
          set_effects
            (<[e := mkEffect (active eff) [] (fn eff) (scheduler eff)]> (effects st))
            (set_sets
               (foldl (λ ss dep, alter (filter (λ x, x ≠ e)) dep ss) (sets st) ds)
               st)
      end
  end.

(** ReactiveEffect.stop *)
Definition stop (e : nat) (st : state) : state :=
  match effects st !! e with
  | None => st
  | Some eff =>
      if active eff then
        cleanupEffect e
          (set_effects
             (<[e := mkEffect false (deps eff) (fn eff) (scheduler eff)]> (effects st))
             st)
      else st
  end.

(** ** reactive.ts *)

Definition IS_REACTIVE : string := "__v_isReactive".

(** [target[key]] and [Reflect.get(target, key, receiver)] on a plain
    object: own data properties only. *)
Definition Reflect_get (target : nat) (key : string) (st : state) : value :=
  match heap st !! target with
  | Some props => default VUndefined (props !! key)
  | None => VUndefined
  end.

(** [Reflect.set(target, key, value, receiver)] on a plain object. *)
Definition Reflect_set (target : nat) (key : string) (v : value) (st : state) : state :=
  set_heap (alter (insert key v) target (heap st)) st.

(** The [get] handler of the proxy. *)
Definition proxy_get (target : nat) (key : string) (st : state) : value * state :=
  if String.eqb key IS_REACTIVE then (VBool true, st)
  else
    let st1 := track target key st in
    (Reflect_get target key st1, st1).

(** [target[ReactiveFlags.IS_REACTIVE]] as [reactive] reads it: through the
    [get] handler when [target] is a proxy, from the object otherwise. *)
Definition read_marker (target : value) (st : state) : value :=
  match target with
  | VProxy _ => VBool true
  | VObj o => Reflect_get o IS_REACTIVE st
  | _ => VUndefined
  end.

(** export function reactive(target) *)
Definition reactive (target : value) (st : state) : value * state :=
  if negb (truthy target) || negb (typeof_object target) then (target, st)
  else if truthy (read_marker target st) then (target, st)
  else
    match target with
    | VObj o =>
        match reactiveMap st !! o with
        | Some existingProxy => (VProxy existingProxy, st)
        | None =>
            let proxy := length (proxies st) in
            (VProxy proxy,
             set_proxies (proxies st ++ [o]) (<[o := proxy]> (reactiveMap st)) st)
        end
    | _ => (target, st)
    end.

(** ** The functions that call user code *)

Section Callbacks.
(** [call body st] runs a user function one stack frame deeper. *)
Variable call : term → state → result.

(** ReactiveEffect.run: the [finally] block runs on both outcomes, the
    return and the throw. *)
Definition run (e : nat) (st : state) : result :=
  match effects st !! e with
  | None => Some (Thrown TypeError, st)
  | Some eff =>
      if negb (active eff) then call (fn eff) st
      else
        match call (fn eff) (set_activeEffect (Some e) st) with
        | Some (o, st1) => Some (o, set_activeEffect None st1)
        | None => None
        end
  end.

(** export function effect(fn) *)
Definition effect (body : term) (st : state) : result :=
  let _effect := length (effects st) in
  let st1 := set_effects (effects st ++ [mkEffect true [] body None]) st in
  and_then (run _effect st1) (λ _ st2, Some (Ret (VRunner _effect), st2)).

(** The callback that [trigger] passes to [effects.forEach]; the call it
    makes is noted in [fired]. *)
Definition invoke (e : nat) (st : state) : result :=
  match effects st !! e with
  | None => Some (Thrown TypeError, st)
  | Some eff =>
      match scheduler eff with
      | Some sched => call sched (log_event (Scheduled e) st)
      | None => run e (log_event (Ran e) st)
      end
  end.

(** [effects.forEach(callback)] on the copy [effects = new Set(dep)]. *)
Fixpoint forEach (snapshot : list nat) (st : state) : result :=
  match snapshot with
  | [] => Some (Ret VUndefined, st)
  | e :: rest => and_then (invoke e st) (λ _ st1, forEach rest st1)
  end.

(** export function trigger(target, key) *)
Definition trigger (target : nat) (key : string) (st : state) : result :=
  match targetMap st !! target with
  | None => Some (Ret VUndefined, st)
  | Some depsMap =>
      match depsMap !! key with
      | None => Some (Ret VUndefined, st)
      | Some dep => forEach (default [] (sets st !! dep)) st
      end
  end.

(** The [set] handler of the proxy. *)
Definition proxy_set (target : nat) (key : string) (v : value) (st : state) : result :=
  let oldValue := Reflect_get target key st in
  let st1 := Reflect_set target key v st in
  if negb (strict_eq oldValue v) then
    and_then (trigger target key st1) (λ _ st2, Some (Ret (VBool true), st2))
  else Some (Ret (VBool true), st1).

(** ** Evaluation of client code within one stack frame

    A reference to a proxy or to an effect that was never created cannot
    arise in a program; such a reference, like a property access on
    [undefined] or [null], throws [TypeError].  Reads of properties of
    other primitive values give [undefined], and assignments to them throw,
    as in strict mode. *)

Fixpoint ev (t : term) (st : state) : result :=
  match t with
  | Lit v => Some (Ret v, st)
  | Var x => Some (Ret (default VUndefined (vars st !! x)), st)
  | Assign x t1 =>
      and_then (ev t1 st) (λ v st1,
        Some (Ret v, set_vars (<[x := v]> (vars st1)) st1))
  | Op1 f t1 => and_then (ev t1 st) (λ v st1, Some (Ret (f v), st1))
  | Op2 f t1 t2 =>
      and_then (ev t1 st) (λ v1 st1,
        and_then (ev t2 st1) (λ v2 st2, Some (Ret (f v1 v2), st2)))
  | Seq t1 t2 => and_then (ev t1 st) (λ _ st1, ev t2 st1)
  | If c t1 t2 =>
      and_then (ev c st) (λ v st1, if truthy v then ev t1 st1 else ev t2 st1)
  | Throw t1 => and_then (ev t1 st) (λ v st1, Some (Thrown v, st1))
  | NewObj props =>
      Some (Ret (VObj (length (heap st))), set_heap (heap st ++ [props]) st)
  | Get o key =>
      and_then (ev o st) (λ vo st1,
        match vo with
        | VUndefined | VNull => Some (Thrown TypeError, st1)
        | VObj target => Some (Ret (Reflect_get target key st1), st1)
        | VProxy p =>
            match proxies st1 !! p with
            | Some target =>
                let '(v, st2) := proxy_get target key st1 in
                Some (Ret v, st2)
            | None => Some (Thrown TypeError, st1)
            end
        | _ => Some (Ret VUndefined, st1)
        end)
  | Put o key t1 =>
      and_then (ev o st) (λ vo st1,
        and_then (ev t1 st1) (λ v st2,
          match vo with
          | VObj target => Some (Ret v, Reflect_set target key v st2)
          | VProxy p =>
              match proxies st2 !! p with
              | Some target =>
                  and_then (proxy_set target key v st2)
                           (λ _ st3, Some (Ret v, st3))
              | None => Some (Thrown TypeError, st2)
              end
          | _ => Some (Thrown TypeError, st2)
          end))
  | Reactive t1 =>
      and_then (ev t1 st) (λ v st1,
        let '(r, st2) := reactive v st1 in Some (Ret r, st2))
  | Effect body => effect body st
  | NewEffect body =>
      Some (Ret VUndefined,
            set_effects (effects st ++ [mkEffect true [] body None]) st)
  | NewScheduled body sched =>
      Some (Ret VUndefined,
            set_effects (effects st ++ [mkEffect true [] body (Some sched)]) st)
  | Run e => run e st
  | Stop e =>
      match effects st !! e with
      | Some _ => Some (Ret VUndefined, stop e st)
      | None => Some (Thrown TypeError, st)
      end
  end.
End Callbacks.

(** [eval depth]: client code run with room for [depth] nested stack
    frames of user functions. *)
Fixpoint eval (depth : nat) : term → state → result :=
  match depth with
  | O => λ _ _, None
  | S d => ev (eval d)
  end.



(** ** Reading the dependency graph *)

(** The Dep reference stored for [(target, key)], if any. *)
Definition dep_of (target : nat) (key : string) (st : state) : option nat :=
  targetMap st !! target ≫= λ depsMap, depsMap !! key.

(** The members of the Dep of [(target, key)], in insertion order. *)
Definition subscribers (target : nat) (key : string) (st : state) : list nat :=
  match dep_of target key st with
  | Some dep => default [] (sets st !! dep)
  | None => []
  end.

(** What [trigger] does with subscriber [e]: its scheduler when it has one,
    its [run] otherwise. *)
Definition mode (st : state) (e : nat) : event :=
  match effects st !! e with
  | Some eff =>
      match scheduler eff with
      | Some _ => Scheduled e
      | None => Ran e
      end
  | None => Ran e
  end.

(** ** Example states and programs *)

(** Two effects with empty bodies, created and not yet run, while the
    first of them is the running one. *)
Definition inside_first_effect : state :=
  set_activeEffect (Some 0)
    (set_effects [mkEffect true [] (Lit VUndefined) None;
                  mkEffect true [] (Lit VUndefined) None] empty_state).

(** [const observed = reactive({ count: 0 })], as in the package's test. *)
Definition observed_count : state :=
  match eval 1 (Assign "observed" (Reactive (NewObj {[ "count" := VNum 0 ]})))
             empty_state with
  | Some (_, st) => st
  | None => empty_state
  end.

(** ** Consistency of the dependency graph

    The link between Deps and effects is kept in both directions: an
    effect is a member of a Dep exactly when that Dep is listed in the
    effect's [deps].  The references held by [targetMap] and by the
    active-effect slot point to existing objects, a Dep belongs to one
    [(target, key)] only, and a Dep, being a [Set], has no duplicates. *)
Record wf (st : state) : Prop := mkWf {
  wf_member : ∀ dep s e, sets st !! dep = Some s → e ∈ s →
    ∃ eff, effects st !! e = Some eff ∧ dep ∈ deps eff;
  wf_deps : ∀ e eff dep, effects st !! e = Some eff → dep ∈ deps eff →
    ∃ s, sets st !! dep = Some s ∧ e ∈ s;
  wf_active : ∀ e, activeEffect st = Some e → e < length (effects st);
  wf_refs : ∀ T k dep, dep_of T k st = Some dep → dep < length (sets st);
  wf_inj : ∀ T k T' k' dep,
    dep_of T k st = Some dep → dep_of T' k' st = Some dep → T = T' ∧ k = k';
  wf_nodup : ∀ dep s, sets st !! dep = Some s → NoDup s
}.

(** ** Classes of client code *)

(** Client code that only reads: it writes no property and does not call
    into the effect API. *)
Fixpoint reader (t : term) : bool :=
  match t with
  | Lit _ | Var _ | NewObj _ => true
  | Assign _ t1 | Op1 _ t1 | Throw t1 | Get t1 _ | Reactive t1 => reader t1
  | Op2 _ t1 t2 | Seq t1 t2 => reader t1 && reader t2
  | If c t1 t2 => reader c && reader t1 && reader t2
  | Put _ _ _ | Effect _ | NewEffect _ | NewScheduled _ _ | Run _ | Stop _ => false
  end.

(** The state in which a program leaves the library. *)
Definition state_after (depth : nat) (t : term) (st : state) : state :=
  match eval depth t st with
  | Some (_, st') => st'
  | None => st
  end.

(** [const s = reactive({ ok: true, a: 1, b: 2 });
     effect(() => s.ok ? s.a : s.b)] *)
Definition branching_body : term :=
  If (Get (Var "s") "ok") (Get (Var "s") "a") (Get (Var "s") "b").

Definition after_first_run : state :=
  state_after 2
    (Seq (Assign "s" (Reactive (NewObj {[ "ok" := VBool true; "a" := VNum 1;
                                          "b" := VNum 2 ]})))
         (Effect branching_body))
    empty_state.


(** [new ReactiveEffect(() => { throw "boom" })], created and not yet run. *)
Definition throwing_body : term := Throw (Lit (VStr "boom")).

Definition one_throwing_effect : state :=
  set_effects (effects empty_state ++ [mkEffect true [] throwing_body None])
              empty_state.

(** What [track] collected between two states. *)
Definition collected_since (st st' : state) : list (nat * string * nat) :=
  drop (length (collected st)) (collected st').


(** [effect(() => { observed.count = observed.count + 1 })]: the function
    reads a key and writes a different value to the same key. *)
Definition incr (v : value) : value :=
  match v with
  | VNum n => VNum (n + 1)
  | _ => VNaN
  end.

Definition increment_body : term :=
  Put (Var "observed") "count" (Op1 incr (Get (Var "observed") "count")).

(** The states met while that effect, the only one there is, runs. *)
Definition self_incrementing (st : state) : Prop :=
  wf st
  ∧ vars st !! "observed" = Some (VProxy 0)
  ∧ proxies st !! 0 = Some 0
  ∧ (∃ n, Reflect_get 0 "count" st = VNum n)
  ∧ ∃ ds, effects st = [mkEffect true ds increment_body None].

(** Client code that assigns to no property and does not call [run] or a
    runner: it may read, stop effects, create and register effects, and
    throw. *)
Fixpoint calm (t : term) : bool :=
  match t with
  | Lit _ | Var _ | NewObj _ | Stop _ | NewEffect _ | NewScheduled _ _ => true
  | Assign _ t1 | Op1 _ t1 | Throw t1 | Get t1 _ | Reactive t1 => calm t1
  | Op2 _ t1 t2 | Seq t1 t2 => calm t1 && calm t2
  | If c t1 t2 => calm c && calm t1 && calm t2
  | Effect body => calm body
  | Put _ _ _ | Run _ => false
  end.

(** The stack frames that calm code needs below its own: the nesting of
    its [effect] registrations, each of which runs its function at once. *)
Fixpoint frames (t : term) : nat :=
  match t with
  | Lit _ | Var _ | NewObj _ | Stop _ | Run _ | NewEffect _ | NewScheduled _ _ => 0
  | Assign _ t1 | Op1 _ t1 | Throw t1 | Get t1 _ | Reactive t1 => frames t1
  | Op2 _ t1 t2 | Seq t1 t2 | Put t1 _ t2 => frames t1 `max` frames t2
  | If c t1 t2 => frames c `max` (frames t1 `max` frames t2)
  | Effect body => S (frames body)
  end.

(** The user function that [trigger] calls for [e], its scheduler or else
    its [fn], is calm and runs within [d] further frames. *)
Definition calm_subscriber (d : nat) (st : state) (e : nat) : Prop :=
  ∃ eff, effects st !! e = Some eff
    ∧ match scheduler eff with
      | Some sched => calm sched = true ∧ frames sched ≤ d
      | None => calm (fn eff) = true ∧ frames (fn eff) ≤ d
      end.

(** The effects of [st] are still there in [st'], with the same [fn] and
    [scheduler]. *)
Definition same_code (st st' : state) : Prop :=
  ∀ e eff, effects st !! e = Some eff →
    ∃ eff', effects st' !! e = Some eff'
      ∧ fn eff' = fn eff ∧ scheduler eff' = scheduler eff.

(** From [st] to [st'] nothing was triggered and no property of an
    existing object was assigned. *)
Definition quiet (st st' : state) : Prop :=
  fired st' = fired st
  ∧ same_code st st'
  ∧ ∀ o props, heap st !! o = Some props → heap st' !! o = Some props.

(** [() => observed.count] *)
Definition read_count : term := Get (Var "observed") "count".

(** Three subscribers of [(observed, count)]; once [armed], the first one
    changes the live set while it runs: it stops the second and registers
    a new effect that reads the same key.  The third has a scheduler.

    [const A = effect(() => { if (armed) { B.effect.stop(); effect(() => observed.count) }
                              observed.count })
     const B = effect(() => observed.count)
     const C = new ReactiveEffect(() => observed.count, () => { scheduled = true })
     C.run(); armed = true] *)
Definition meddling_body : term :=
  Seq (If (Var "armed") (Seq (Stop 1) (Effect read_count)) (Lit VUndefined))
      read_count.

Definition live_set_demo : state :=
  state_after 2
    (Seq (Effect meddling_body)
    (Seq (Effect read_count)
    (Seq (NewScheduled read_count (Assign "scheduled" (Lit (VBool true))))
    (Seq (Run 2)
         (Assign "armed" (Lit (VBool true)))))))
    observed_count.

(** An effect that stops itself and goes on reading:
    [const runner = effect(() => { if (done) runner.effect.stop(); return observed.count })
     done = true; observed.count = 1] *)
Definition self_stopping_body : term :=
  Seq (If (Var "done") (Stop 0) (Lit VUndefined)) read_count.

Definition after_self_stop : state :=
  state_after 3
    (Seq (Effect self_stopping_body)
    (Seq (Assign "done" (Lit (VBool true)))
         (Put (Var "observed") "count" (Lit (VNum 1)))))
    observed_count.

(** The package's test [should be reactive]:
    [let dummy; effect(() => { dummy = observed.count })] *)
Definition dummy_registered : state :=
  state_after 2 (Effect (Assign "dummy" read_count)) observed_count.

(** [const outer = effect(() => { effect(() => undefined); observed.count })] *)
Definition nested_registered : state :=
  state_after 3 (Effect (Seq (Effect (Lit VUndefined)) read_count)) observed_count.

(** [observed.count = 1] *)
Definition dummy_written : state :=
  state_after 2 (Put (Var "observed") "count" (Lit (VNum 1))) dummy_registered.

(** Effect [e] is stopped, is not the active effect and is in no
    dependency set, and [trigger] has not called it since the record of
    calls had [n] entries. *)
Definition retired (e n : nat) (st : state) : Prop :=
  (∃ eff, effects st !! e = Some eff ∧ active eff = false)
  ∧ activeEffect st ≠ Some e
  ∧ (∀ dep s, sets st !! dep = Some s → e ∉ s)
  ∧ Forall (λ ev, ev ≠ Ran e ∧ ev ≠ Scheduled e) (drop n (fired st)).

(** ** Further invariants and examples *)

(** No effect lists the same Dep twice in its [deps]. *)
Definition deps_distinct (st : state) : Prop :=
  ∀ e eff, effects st !! e = Some eff → NoDup (deps eff).

(** From [st] to [st'] every effect instance is kept, with the same [fn]
    and [scheduler], and an instance that was stopped is stopped still. *)
Definition evolves (st st' : state) : Prop :=
  ∀ e eff, effects st !! e = Some eff →
    ∃ eff', effects st' !! e = Some eff'
      ∧ fn eff' = fn eff ∧ scheduler eff' = scheduler eff
      ∧ (active eff = false → active eff' = false).

(** [reactiveMap] and the proxies agree: the proxy cached for a target is
    a proxy of that target, and every proxy is the one cached for its
    target. *)
Definition proxies_consistent (st : state) : Prop :=
  ∀ o p, reactiveMap st !! o = Some p ↔ proxies st !! p = Some o.

(** Nothing of the dependency graph, of the effects or of the two records
    differs between [st] and [st']. *)
Definition untracked (st st' : state) : Prop :=
  targetMap st' = targetMap st ∧ sets st' = sets st
  ∧ effects st' = effects st ∧ activeEffect st' = activeEffect st
  ∧ collected st' = collected st ∧ fired st' = fired st.

(** From [st] to [st'] every proxy keeps its target and every target keeps
    the proxy cached for it. *)
Definition proxies_kept (st st' : state) : Prop :=
  (∀ p T, proxies st !! p = Some T → proxies st' !! p = Some T)
  ∧ (∀ T p, reactiveMap st !! T = Some p → reactiveMap st' !! T = Some p).

(** The package's test program, from the creation of the object on:
    [const observed = reactive({ count: 0 });
     let dummy; effect(() => { dummy = observed.count });
     observed.count = 1] *)
Definition should_be_reactive_program : term :=
  Seq (Assign "observed" (Reactive (NewObj {[ "count" := VNum 0 ]})))
  (Seq (Effect (Assign "dummy" read_count))
       (Put (Var "observed") "count" (Lit (VNum 1)))).

(** A cascade: the first subscriber of [count] writes [double], which has
    a subscriber of its own.
    [const observed = reactive({ count: 0, double: 0 })
     effect(() => { observed.double = observed.count * 2 })
     effect(() => observed.double)
     effect(() => observed.count)] *)
Definition twice (v : value) : value :=
  match v with
  | VNum n => VNum (2 * n)
  | _ => VNaN
  end.

Definition cascade_registered : state :=
  state_after 3
    (Seq (Assign "observed"
            (Reactive (NewObj {[ "count" := VNum 0; "double" := VNum 0 ]})))
    (Seq (Effect (Put (Var "observed") "double" (Op1 twice read_count)))
    (Seq (Effect (Get (Var "observed") "double"))
         (Effect read_count))))
    empty_state.

(** The state when the set handler, having stored [count = 1], calls
    [trigger]. *)
Definition cascade_written : state :=
  Reflect_set 0 "count" (VNum 1) cascade_registered.

(** [const observed = reactive({ count: NaN }); effect(() => observed.count)] *)
Definition nan_registered : state :=
  state_after 2
    (Seq (Assign "observed" (Reactive (NewObj {[ "count" := VNaN ]})))
         (Effect read_count))
    empty_state.

(** Effect [e] has a scheduler, and the scheduler only reads. *)
Definition scheduled_reader (st : state) (e : nat) : Prop :=
  ∃ eff sched, effects st !! e = Some eff
    ∧ scheduler eff = Some sched ∧ reader sched = true.

(** [const job = new ReactiveEffect(() => observed.count,
                                    () => { scheduled = true })
     job.run()] *)
Definition scheduled_registered : state :=
  state_after 2
    (Seq (NewScheduled read_count (Assign "scheduled" (Lit (VBool true))))
         (Run 0))
    observed_count.

(** ** Notification, told through the user's functions

    The description of notification: [trigger] takes a copy of the
    subscriber set before the first call, and for each subscriber of the
    copy it calls the scheduler when the subscriber carries one and runs
    the computation otherwise.  The definitions below say what these calls
    are in terms of the functions the user supplied, each subscriber of the
    copy taken together with the instance it had when the copy was made;
    the library functions [trigger], [forEach], [invoke] and [run] are not
    used in them. *)

(** The [active] flag of effect [e] as it is in [st]. *)
Definition is_active (e : nat) (st : state) : bool :=
  match effects st !! e with
  | Some eff => active eff
  | None => false
  end.

(** One call of subscriber [e], whose instance holds the function and the
    scheduler of [eff].  With a scheduler, the scheduler is evaluated and
    the function is not.  Without one the function is evaluated: for an
    effect that is active at that moment with the effect in the
    active-effect slot, which is empty after the evaluation whether it
    returns or throws; for a stopped effect with the slot left as it is.
    The call is noted in [fired] first. *)
Definition call_subscriber (d : nat) (e : nat) (eff : ReactiveEffect)
    (st : state) : result :=
  match scheduler eff with
  | Some sched => eval d sched (log_event (Scheduled e) st)
  | None =>
      let st0 := log_event (Ran e) st in
      if is_active e st then
        match eval d (fn eff) (set_activeEffect (Some e) st0) with
        | Some (o, st1) => Some (o, set_activeEffect None st1)
        | None => None
        end
      else eval d (fn eff) st0
  end.

(** The subscribers of a copy called one after the other, each from the
    state the one before it left; a throw ends the walk. *)
Fixpoint call_in_order (d : nat) (copy : list (nat * ReactiveEffect))
    (st : state) : result :=
  match copy with
  | [] => Some (Ret VUndefined, st)
  | (e, eff) :: rest =>
      and_then (call_subscriber d e eff st) (λ _ st1, call_in_order d rest st1)
  end.

(** The copy of the subscriber set of [(T, k)] made in [st]: the members
    in the order of the set, each with its instance as it is in [st]. *)
Definition snapshot (T : nat) (k : string) (st : state)
    : list (nat * ReactiveEffect) :=
  omap (λ e, pair e <$> effects st !! e) (subscribers T k st).

(** In [st] the effect of the entry [p] of a copy still holds the function
    and the scheduler that the entry records. *)
Definition carries (st : state) (p : nat * ReactiveEffect) : Prop :=
  ∃ eff, effects st !! p.1 = Some eff
    ∧ fn eff = fn p.2 ∧ scheduler eff = scheduler p.2.

(** The schedulers of the subscribers of [(T, k)], in the order of the
    set, and their evaluation one after the other; the functions of the
    effects do not occur. *)
Definition schedulers (T : nat) (k : string) (st : state) : list (nat * term) :=
  omap (λ e, eff ← effects st !! e; pair e <$> scheduler eff) (subscribers T k st).

Fixpoint schedule_in_order (d : nat) (jobs : list (nat * term)) (st : state)
    : result :=
  match jobs with
  | [] => Some (Ret VUndefined, st)
  | (e, sched) :: rest =>
      and_then (eval d sched (log_event (Scheduled e) st))
               (λ _ st1, schedule_in_order d rest st1)
  end.

(** ** What may run after a given point *)

(** Effect [e] is stopped, is not the active effect and is a member of no
    dependency set. *)
Definition detached (e : nat) (st : state) : Prop :=
  (∃ eff, effects st !! e = Some eff ∧ active eff = false)
  ∧ activeEffect st ≠ Some e
  ∧ ∀ dep s, sets st !! dep = Some s → e ∉ s.

(** [later st st']: from [st] the library reaches [st'] by what can still
    run: client code (which covers the rest of any function in progress),
    the rest of the [forEach] of a [trigger] in progress, over whatever is
    left of its copy, and the [finally] block of a [run] in progress. *)
Inductive later : state → state → Prop :=
| later_now st : later st st
| later_eval d t st o st1 st' :
    eval d t st = Some (o, st1) → later st1 st' → later st st'
| later_forEach d l st o st1 st' :
    forEach (eval d) l st = Some (o, st1) → later st1 st' → later st st'
| later_exit st st' :
    later (set_activeEffect None st) st' → later st st'.

(** ** Further example states *)

(** Inside the run of a first effect (the slot holds it), with a second
    effect, whose function throws, created and not yet run. *)
Definition inside_effect_with_thrower : state :=
  set_activeEffect (Some 0)
    (set_effects [mkEffect true [] read_count None;
                  mkEffect true [] throwing_body None] observed_count).

(** Three subscribers of [(observed, count)], the second of which throws
    once [armed]:
    [effect(() => observed.count)
     effect(() => { observed.count; if (armed) throw "boom" })
     effect(() => { dummy = observed.count })
     armed = true] *)
Definition throwing_demo : state :=
  state_after 2
    (Seq (Effect read_count)
    (Seq (Effect (Seq read_count
                      (If (Var "armed") throwing_body (Lit VUndefined))))
    (Seq (Effect (Assign "dummy" read_count))
         (Assign "armed" (Lit (VBool true))))))
    observed_count.

(** The state in which the [trigger] of a write [observed.count = 1] to
    that object ends. *)
Definition throwing_demo_triggered : state :=
  match trigger (eval 1) 0 "count" (Reflect_set 0 "count" (VNum 1) throwing_demo) with
  | Some (_, st) => st
  | None => throwing_demo
  end.

(** * Properties *)

(** ** The observation layer *)

Lemma reactive_proxy p st : reactive (VProxy p) st = (VProxy p, st).
Proof. reflexivity. Qed.

Lemma reactive_not_object v st :
  typeof_object v = false ∨ v = VNull → reactive v st = (v, st).
Proof.
  intros [H | ->]; [|reflexivity].
  unfold reactive. rewrite H. by rewrite orb_true_r.
Qed.

Lemma reactive_cached o p st :
  truthy (Reflect_get o IS_REACTIVE st) = false →
  reactiveMap st !! o = Some p →
  reactive (VObj o) st = (VProxy p, st).
Proof. intros Hm Hc. unfold reactive. simpl. by rewrite Hm, Hc. Qed.

(** Either [reactive] hands its argument back, or the argument is a plain
    object and the result is the proxy now cached for it. *)
Lemma reactive_cases T st :
  reactive T st = (T, st)
  ∨ ∃ o p, T = VObj o ∧ (reactive T st).1 = VProxy p
           ∧ reactiveMap (reactive T st).2 !! o = Some p
           ∧ truthy (Reflect_get o IS_REACTIVE (reactive T st).2) = false.
Proof.
  unfold reactive.
  destruct (negb (truthy T) || negb (typeof_object T)); [by left|].
  destruct (truthy (read_marker T st)) eqn:Hm; [by left|].
  destruct T as [| | | | | |o|p|e]; try by left.
  right. exists o. simpl in Hm.
  destruct (reactiveMap st !! o) as [q|] eqn:Hc.
  - exists q. by simpl.
  - eexists. simpl. split_and!; [done..| |done].
    by rewrite lookup_insert_eq.
Qed.

(** C6: [reactive] is idempotent with a stable identity.  For every value
    [T] and state: calling [reactive] on the result of [reactive T] gives
    that same result, a second call [reactive T] gives the same reference
    as the first (also after the re-wrap in between), and a value that is
    not an object (or is [null]) comes back unchanged, with nothing
    allocated. *)
Theorem reactive_idempotent (T : value) (st : state) :
  (reactive (reactive T st).1 (reactive T st).2).1 = (reactive T st).1
  ∧ (reactive T (reactive T st).2).1 = (reactive T st).1
  ∧ (reactive T (reactive (reactive T st).1 (reactive T st).2).2).1
    = (reactive T st).1
  ∧ (typeof_object T = false ∨ T = VNull → reactive T st = (T, st)).
Proof.
  split_and!; [| | |apply reactive_not_object].
  - destruct (reactive_cases T st) as [E | (o & p & -> & E1 & _)].
    + rewrite E. simpl. by rewrite E.
    + by rewrite E1.
  - destruct (reactive_cases T st) as [E | (o & p & -> & E1 & E2 & E3)].
    + rewrite E. simpl. by rewrite E.
    + rewrite (reactive_cached o p (reactive (VObj o) st).2); [|done..].
      simpl. by symmetry.
  - destruct (reactive_cases T st) as [E | (o & p & -> & E1 & E2 & E3)].
    + rewrite E. simpl. rewrite E. simpl. by rewrite E.
    + rewrite E1. simpl.
      rewrite (reactive_cached o p (reactive (VObj o) st).2); [|done..].
      simpl. by symmetry.
Qed.

(** ** The active-effect slot *)

Lemma run_active d e eff st :
  effects st !! e = Some eff → active eff = true →
  run (eval d) e st =
    match eval d (fn eff) (set_activeEffect (Some e) st) with
    | Some (o, st1) => Some (o, set_activeEffect None st1)
    | None => None
    end.
Proof. intros He Ha. unfold run. by rewrite He, Ha. Qed.

Lemma run_clears_slot d e eff st o st' :
  effects st !! e = Some eff → active eff = true →
  run (eval d) e st = Some (o, st') → activeEffect st' = None.
Proof.
  intros He Ha. rewrite (run_active _ _ _ _ He Ha).
  destruct (eval d (fn eff) _) as [[o1 st1]|]; [|done].
  by intros [= _ <-].
Qed.

Lemma effect_clears_slot d body st o st' :
  eval d (Effect body) st = Some (o, st') → activeEffect st' = None.
Proof.
  destruct d as [|d]; [done|]. simpl. unfold effect.
  set (st1 := set_effects _ st).
  assert (He : effects st1 !! length (effects st)
               = Some (mkEffect true [] body None)).
  { subst st1. simpl. by rewrite lookup_app_r, Nat.sub_diag by lia. }
  destruct (run (eval d) _ st1) as [[[v|x] st2]|] eqn:Hr; simpl; [| |done].
  - intros [= _ <-]. by eapply run_clears_slot.
  - intros [= _ <-]. by eapply run_clears_slot.
Qed.

Lemma get_outside_effect d p k st :
  activeEffect st = None →
  ∃ o, eval (S d) (Get (Lit (VProxy p)) k) st = Some (o, st).
Proof.
  intros Hn. simpl. destruct (proxies st !! p) as [T|]; [|by eexists].
  unfold proxy_get. destruct (String.eqb k IS_REACTIVE); [by eexists|].
  unfold track. rewrite Hn. by eexists.
Qed.

(** C9: [track] returns at once when there is no active effect: it leaves
    the whole state as it was, and so does a read of a property of a
    reactive proxy made outside any effect's run, which only yields the
    stored value: the dependency graph gets no entry and no effect becomes
    a subscriber. *)
Theorem track_without_active_effect (T : nat) (k : string) (st : state) :
  activeEffect st = None →
  track T k st = st
  ∧ ∀ d p, proxies st !! p = Some T →
      eval (S d) (Get (Lit (VProxy p)) k) st
      = Some (Ret (if String.eqb k IS_REACTIVE then VBool true
                   else Reflect_get T k st), st).
Proof.
  intros Hn.
  assert (Ht : track T k st = st) by (unfold track; by rewrite Hn).
  split; [done|]. intros d p Hp. simpl. rewrite Hp. unfold proxy_get.
  destruct (String.eqb k IS_REACTIVE); [done|]. by rewrite Ht.
Qed.

(** Outside any effect, in the state of the package's test. *)
Lemma track_without_active_effect_witness :
  track 0 "count" observed_count = observed_count
  ∧ ∀ d p, proxies observed_count !! p = Some 0 →
      eval (S d) (Get (Lit (VProxy p)) "count") observed_count
      = Some (Ret (if String.eqb "count" IS_REACTIVE then VBool true
                   else Reflect_get 0 "count" observed_count), observed_count).
Proof. apply (track_without_active_effect 0 "count" observed_count). reflexivity. Defined.

(** C10: when a call of [run] on an active effect completes, by a normal
    return or by a throw, nested in another effect's run or not, and
    likewise when a registration through [effect] completes, the
    active-effect slot is empty, not set to the enclosing effect; a read of
    a reactive property made next, for instance by the enclosing effect,
    changes nothing in the state: it is not tracked. *)
Theorem slot_empty_after_run (d : nat) (st st' : state) (o : outcome)
    (p : nat) (k : string) :
  (∃ e eff, effects st !! e = Some eff ∧ active eff = true
            ∧ run (eval d) e st = Some (o, st'))
  ∨ (∃ body, eval d (Effect body) st = Some (o, st')) →
  activeEffect st' = None
  ∧ ∃ o', eval (S d) (Get (Lit (VProxy p)) k) st' = Some (o', st').
Proof.
  intros H.
  assert (Hn : activeEffect st' = None).
  { destruct H as [(e & eff & He & Ha & Hr) | (body & Hr)].
    - by eapply run_clears_slot.
    - by eapply effect_clears_slot. }
  split; [done|]. by apply get_outside_effect.
Qed.

(** The run of the second effect, nested in the run of the first. *)
Lemma slot_empty_after_run_witness :
  activeEffect (set_activeEffect None inside_first_effect) = None
  ∧ ∃ o', eval 2 (Get (Lit (VProxy 0)) "count")
               (set_activeEffect None inside_first_effect)
          = Some (o', set_activeEffect None inside_first_effect).
Proof.
  apply (slot_empty_after_run 1 inside_first_effect
           (set_activeEffect None inside_first_effect) (Ret VUndefined) 0 "count").
  left. eexists 1, _. split_and!; reflexivity.
Defined.

(** C2, as the code has it: for every active effect, [run] sets the slot
    to the running effect, runs the user function under it, and on every
    exit path, normal return and throw alike, leaves the slot empty,
    whatever it held on entry; the outcome of the function is passed on
    unchanged.  In particular the slot is empty, not the enclosing effect,
    after a run nested in another effect's run. *)
Theorem run_sets_then_clears_slot (d e : nat) (eff : ReactiveEffect)
    (st st' : state) (o : outcome) :
  effects st !! e = Some eff → active eff = true →
  run (eval d) e st = Some (o, st') →
  (∃ st1, eval d (fn eff) (set_activeEffect (Some e) st) = Some (o, st1)
          ∧ st' = set_activeEffect None st1)
  ∧ activeEffect st' = None.
Proof.
  intros He Ha Hr. split; [|by eapply run_clears_slot].
  rewrite (run_active _ _ _ _ He Ha) in Hr.
  destruct (eval d (fn eff) _) as [[o1 st1]|]; [|done].
  injection Hr as -> <-. by exists st1.
Qed.

(** The run of the second effect, nested in the run of the first. *)
Lemma run_sets_then_clears_slot_witness :
  (∃ st1, eval 1 (Lit VUndefined) (set_activeEffect (Some 1) inside_first_effect)
          = Some (Ret VUndefined, st1)
          ∧ set_activeEffect None inside_first_effect = set_activeEffect None st1)
  ∧ activeEffect (set_activeEffect None inside_first_effect) = None.
Proof.
  apply (run_sets_then_clears_slot 1 1 (mkEffect true [] (Lit VUndefined) None)
           inside_first_effect (set_activeEffect None inside_first_effect)
           (Ret VUndefined)); reflexivity.
Defined.

(** C2, as the claim states it, fails: inside the run of effect 0 (the
    slot holds effect 0) effect 1 is run; when that nested run returns the
    slot is empty, not restored to effect 0.  Seen from a program: an
    effect that registers another effect and then reads [observed.count]
    is not a subscriber of that key after its run. *)
Lemma run_does_not_restore_slot :
  activeEffect inside_first_effect = Some 0
  ∧ (∃ st', run (eval 1) 1 inside_first_effect = Some (Ret VUndefined, st')
            ∧ activeEffect st' = None
            ∧ activeEffect st' ≠ activeEffect inside_first_effect)
  ∧ subscribers 0 "count" nested_registered = [].
Proof.
  split_and!; [reflexivity| |vm_compute; reflexivity].
  eexists. split_and!; [reflexivity..|done].
Qed.

(** The test of the package: the effect runs once at registration, a
    write of a new value runs it again, and a write of the same value
    does not. *)
Lemma should_be_reactive :
  vars dummy_registered !! "dummy" = Some (VNum 0)
  ∧ fired dummy_registered = []
  ∧ vars dummy_written !! "dummy" = Some (VNum 1)
  ∧ fired dummy_written = [Ran 0]
  ∧ fired (state_after 2 (Put (Var "observed") "count" (Lit (VNum 1))) dummy_written)
    = [Ran 0].
Proof. split_and!; vm_compute; reflexivity. Qed.

(** ** The dependency graph stays consistent *)

Lemma wf_empty : wf empty_state.
Proof.
  constructor; simpl; done.
Qed.

Lemma wf_same st st' :
  targetMap st' = targetMap st → sets st' = sets st →
  effects st' = effects st → activeEffect st' = activeEffect st →
  wf st → wf st'.
Proof.
  intros Ht Hs He Ha [].
  constructor; unfold dep_of in *; rewrite ?Ht, ?Hs, ?He, ?Ha; eauto.
Qed.

Lemma dep_of_alloc T k d T' k' st st' :
  targetMap st' = <[T := <[k := d]> (default ∅ (targetMap st !! T))]> (targetMap st) →
  dep_of T' k' st' = if decide (T' = T ∧ k' = k) then Some d else dep_of T' k' st.
Proof.
  intros Ht. unfold dep_of. rewrite Ht. destruct (decide (T' = T)) as [->|HT].
  - rewrite lookup_insert_eq. simpl. destruct (decide (k' = k)) as [->|Hk].
    + rewrite lookup_insert_eq. by rewrite decide_True.
    + rewrite lookup_insert_ne by done. rewrite decide_False by (intros [? ?]; congruence).
      by destruct (targetMap st !! T).
  - rewrite lookup_insert_ne by done. by rewrite decide_False by (intros [? ?]; congruence).
Qed.

Lemma track_eq T k e st :
  activeEffect st = Some e →
  track T k st =
    match dep_of T k st with
    | Some dep => subscribe dep e (log_collected T k e st)
    | None =>
        subscribe (length (sets st)) e
          (set_targetMap
             (<[T := <[k := length (sets st)]> (default ∅ (targetMap st !! T))]>
                (targetMap st))
             (set_sets (sets st ++ [[]]) (log_collected T k e st)))
    end.
Proof.
  intros Ha. unfold track, dep_of. rewrite Ha. simpl.
  destruct (targetMap st !! T) as [m|] eqn:Hm; simpl.
  - rewrite Hm. simpl. by destruct (m !! k).
  - rewrite lookup_insert_eq. simpl. rewrite lookup_empty.
    by rewrite insert_insert_eq.
Qed.

Lemma wf_subscribe dep e st :
  wf st → dep < length (sets st) → e < length (effects st) →
  wf (subscribe dep e st).
Proof.
  intros Hwf Hd He. unfold subscribe, dep_has.
  destruct (lookup_lt_is_Some_2 _ _ Hd) as [s Hs].
  destruct (lookup_lt_is_Some_2 _ _ He) as [eff0 Heff0].
  rewrite Hs. case_bool_decide as Hin; [done|].
  destruct Hwf as [Hmem Hdeps Hact Hrefs Hinj Hnd].
  constructor; simpl.
  - intros dep' s' e'. rewrite list_lookup_alter.
    destruct (decide (dep = dep')) as [<-|Hne].
    + rewrite Hs. simpl. intros [= <-] [Hold | ->%list_elem_of_singleton]%elem_of_app.
      * destruct (Hmem _ _ _ Hs Hold) as (eff & Heff & Hdin).
        rewrite list_lookup_alter. destruct (decide (e = e')) as [<-|].
        -- rewrite Heff. simpl. eexists. split; [done|]. simpl.
           apply elem_of_app. by left.
        -- by exists eff.
      * rewrite list_lookup_alter_eq, Heff0. simpl. eexists. split; [done|].
        simpl. apply elem_of_app. right. by apply list_elem_of_singleton.
    + intros Hs' Hin'. destruct (Hmem _ _ _ Hs' Hin') as (eff & Heff & Hdin).
      rewrite list_lookup_alter. destruct (decide (e = e')) as [<-|].
      * rewrite Heff. simpl. eexists. split; [done|]. simpl.
        apply elem_of_app. by left.
      * by exists eff.
  - intros e' eff' dep'. rewrite !list_lookup_alter.
    destruct (decide (e = e')) as [<-|Hne].
    + rewrite Heff0. simpl. intros [= <-]. simpl.
      intros [Hold | ->%list_elem_of_singleton]%elem_of_app.
      * destruct (Hdeps _ _ _ Heff0 Hold) as (s' & Hs' & Hin').
        destruct (decide (dep = dep')) as [<-|].
        -- rewrite Hs'. simpl. eexists. split; [done|]. apply elem_of_app. by left.
        -- by exists s'.
      * rewrite decide_True by done. rewrite Hs. simpl. eexists. split; [done|].
        apply elem_of_app. right. by apply list_elem_of_singleton.
    + intros Heff' Hdin. destruct (Hdeps _ _ _ Heff' Hdin) as (s' & Hs' & Hin').
      destruct (decide (dep = dep')) as [<-|].
      * rewrite Hs'. simpl. eexists. split; [done|]. apply elem_of_app. by left.
      * by exists s'.
  - intros e' Ha. rewrite length_alter. by apply Hact.
  - intros T k dep' Hdep. rewrite length_alter. by eapply Hrefs.
  - apply Hinj.
  - intros dep' s'. rewrite list_lookup_alter.
    destruct (decide (dep = dep')) as [<-|Hne]; [|apply Hnd].
    rewrite Hs. simpl. intros [= <-]. apply NoDup_app. split_and!.
    + by eapply Hnd.
    + intros x Hx ->%list_elem_of_singleton. done.
    + apply NoDup_singleton.
Qed.

Lemma wf_alloc T k st :
  wf st → dep_of T k st = None →
  wf (set_targetMap
        (<[T := <[k := length (sets st)]> (default ∅ (targetMap st !! T))]>
           (targetMap st))
        (set_sets (sets st ++ [[]]) st)).
Proof.
  intros [Hmem Hdeps Hact Hrefs Hinj Hnd] Hnone.
  constructor; simpl.
  - intros dep s e [Hs | [_ Hs]]%lookup_app_Some; [by eauto|].
    apply list_lookup_singleton_Some in Hs as [_ <-]. by intros ?%elem_of_nil.
  - intros e eff dep Heff Hdin. destruct (Hdeps _ _ _ Heff Hdin) as (s & Hs & Hin).
    exists s. split; [|done]. by apply lookup_app_l_Some.
  - done.
  - intros T' k' dep. erewrite dep_of_alloc by reflexivity.
    rewrite length_app. simpl. case_decide.
    + intros [= <-]. lia.
    + intros H'. apply Hrefs in H'. lia.
  - intros T1 k1 T2 k2 dep H1 H2.
    erewrite dep_of_alloc in H1 by reflexivity.
    erewrite dep_of_alloc in H2 by reflexivity.
    destruct (decide (T1 = T ∧ k1 = k)) as [[-> ->]|],
             (decide (T2 = T ∧ k2 = k)) as [[-> ->]|]; [done| | |by eauto].
    + injection H1 as <-. apply Hrefs in H2. lia.
    + injection H2 as <-. apply Hrefs in H1. lia.
  - intros dep s [Hs | [_ Hs]]%lookup_app_Some; [by eauto|].
    apply list_lookup_singleton_Some in Hs as [_ <-]. apply NoDup_nil_2.
Qed.

Lemma wf_track T k st : wf st → wf (track T k st).
Proof.
  intros Hwf. destruct (activeEffect st) as [e|] eqn:Ha.
  - rewrite (track_eq _ _ _ _ Ha).
    assert (He : e < length (effects st)) by by apply wf_active.
    assert (Hlog : wf (log_collected T k e st)) by by apply (wf_same st).
    destruct (dep_of T k st) as [dep|] eqn:Hd.
    + apply wf_subscribe; [done| |done]. simpl. by eapply wf_refs.
    + pose proof (wf_alloc T k _ Hlog Hd) as Hal.
      apply wf_subscribe; [done|simpl..|done].
      rewrite length_app. simpl. lia.
  - unfold track. by rewrite Ha.
Qed.

Lemma cleanup_sets_lookup e ds (ss : list (list nat)) i :
  foldl (λ ss dep, alter (filter (λ x, x ≠ e)) dep ss) ss ds !! i
  = (λ s, if decide (i ∈ ds) then filter (λ x, x ≠ e) s else s) <$> ss !! i.
Proof.
  revert ss. induction ds as [|d ds IH]; intros ss.
  - cbn [foldl]. destruct (ss !! i) as [s|]; [|done]. cbn [fmap option_fmap option_map].
    by rewrite decide_False by apply not_elem_of_nil.
  - cbn [foldl]. rewrite IH, list_lookup_alter.
    destruct (decide (d = i)) as [->|Hne].
    + destruct (ss !! i) as [s|]; [|done]. cbn [fmap option_fmap option_map]. f_equal.
      rewrite (decide_True (P := i ∈ i :: ds)) by apply list_elem_of_here.
      case_decide; [|done]. by apply list_filter_filter_l.
    + destruct (ss !! i) as [s|]; [|done]. cbn [fmap option_fmap option_map]. f_equal.
      destruct (decide (i ∈ ds)) as [Hin|Hnin].
      * rewrite decide_True; [done|]. by apply list_elem_of_further.
      * rewrite decide_False; [done|].
        intros [?|?]%elem_of_cons; [congruence|done].
Qed.

Lemma cleanup_sets_length e ds (ss : list (list nat)) :
  length (foldl (λ ss dep, alter (filter (λ x, x ≠ e)) dep ss) ss ds) = length ss.
Proof.
  revert ss. induction ds as [|d ds IH]; intros ss; simpl; [done|].
  by rewrite IH, length_alter.
Qed.

(** [cleanupEffect] on an effect with a non-empty [deps]. *)
Lemma cleanupEffect_eq e eff st :
  effects st !! e = Some eff →
  cleanupEffect e st =
    match deps eff with
    | [] => st
    | _ =>
        set_effects (<[e := mkEffect (active eff) [] (fn eff) (scheduler eff)]> (effects st))
          (set_sets (foldl (λ ss dep, alter (filter (λ x, x ≠ e)) dep ss)
                           (sets st) (deps eff)) st)
    end.
Proof. intros He. unfold cleanupEffect. rewrite He. by destruct (deps eff). Qed.

Lemma wf_cleanupEffect e st : wf st → wf (cleanupEffect e st).
Proof.
  intros Hwf. destruct (effects st !! e) as [eff|] eqn:He;
    [|unfold cleanupEffect; by rewrite He].
  rewrite (cleanupEffect_eq _ _ _ He).
  destruct (deps eff) as [|d0 ds0] eqn:Hds; [done|]. rewrite <- Hds. clear Hds.
  pose proof (lookup_lt_Some _ _ _ He) as Hlt.
  destruct Hwf as [Hmem Hdeps Hact Hrefs Hinj Hnd].
  constructor; simpl.
  - intros dep s' e'. rewrite cleanup_sets_lookup.
    destruct (sets st !! dep) as [s|] eqn:Hs; [simpl|done].
    intros [= <-] Hin.
    assert (e' ∈ s ∧ e' ≠ e) as [Hin' Hne].
    { case_decide as Hd.
      - apply list_elem_of_filter in Hin. tauto.
      - split; [done|]. intros ->.
        destruct (Hmem _ _ _ Hs Hin) as (eff' & He' & Hd'). congruence. }
    destruct (Hmem _ _ _ Hs Hin') as (eff' & He' & Hd').
    exists eff'. by rewrite list_lookup_insert_ne.
  - intros e' eff' dep. destruct (decide (e = e')) as [<-|Hne].
    + rewrite list_lookup_insert_eq by done. intros [= <-]. simpl.
      by intros ?%elem_of_nil.
    + rewrite list_lookup_insert_ne by done. intros He' Hd'.
      destruct (Hdeps _ _ _ He' Hd') as (s & Hs & Hin).
      rewrite cleanup_sets_lookup, Hs. simpl. eexists. split; [done|].
      case_decide; [|done]. apply list_elem_of_filter. split; [congruence|done].
  - intros e' Ha. rewrite length_insert. by apply Hact.
  - intros T k dep Hd. rewrite cleanup_sets_length. by eapply Hrefs.
  - apply Hinj.
  - intros dep s'. rewrite cleanup_sets_lookup.
    destruct (sets st !! dep) as [s|] eqn:Hs; [simpl|done].
    intros [= <-]. case_decide; [apply NoDup_filter|]; by eapply Hnd.
Qed.

(** Changing only the [active] flag of an effect keeps the graph consistent. *)
Lemma wf_set_active e eff b st :
  effects st !! e = Some eff →
  wf st →
  wf (set_effects (<[e := mkEffect b (deps eff) (fn eff) (scheduler eff)]> (effects st)) st).
Proof.
  intros He [Hmem Hdeps Hact Hrefs Hinj Hnd].
  pose proof (lookup_lt_Some _ _ _ He) as Hlt.
  constructor; simpl; try done.
  - intros dep s e' Hs Hin. destruct (Hmem _ _ _ Hs Hin) as (eff' & He' & Hd').
    destruct (decide (e = e')) as [<-|Hne].
    + rewrite list_lookup_insert_eq by done. eexists. split; [done|]. simpl. congruence.
    + rewrite list_lookup_insert_ne by done. by exists eff'.
  - intros e' eff' dep. destruct (decide (e = e')) as [<-|Hne].
    + rewrite list_lookup_insert_eq by done. intros [= <-]. simpl. by apply Hdeps.
    + rewrite list_lookup_insert_ne by done. apply Hdeps.
  - intros e' Ha. rewrite length_insert. by apply Hact.
Qed.

Lemma wf_stop e st : wf st → wf (stop e st).
Proof.
  intros Hwf. unfold stop. destruct (effects st !! e) as [eff|] eqn:He; [|done].
  destruct (active eff); [|done].
  apply wf_cleanupEffect. by apply wf_set_active.
Qed.

Lemma wf_new_effect eff st :
  deps eff = [] → wf st → wf (set_effects (effects st ++ [eff]) st).
Proof.
  intros Hd [Hmem Hdeps Hact Hrefs Hinj Hnd].
  constructor; simpl; try done.
  - intros dep s e Hs Hin. destruct (Hmem _ _ _ Hs Hin) as (eff' & He' & Hd').
    exists eff'. split; [|done]. by apply lookup_app_l_Some.
  - intros e eff' dep [He | [_ He]]%lookup_app_Some; [by eauto|].
    apply list_lookup_singleton_Some in He as [_ <-]. rewrite Hd.
    by intros ?%elem_of_nil.
  - intros e Ha. rewrite length_app. apply Hact in Ha. lia.
Qed.

Lemma wf_set_activeEffect a st :
  (∀ e, a = Some e → e < length (effects st)) →
  wf st → wf (set_activeEffect a st).
Proof. intros Ha []. by constructor. Qed.

Lemma wf_reactive v st : wf st → wf (reactive v st).2.
Proof.
  intros Hwf. unfold reactive.
  destruct (negb (truthy v) || negb (typeof_object v)); [done|].
  destruct (truthy (read_marker v st)); [done|].
  destruct v; try done. destruct (reactiveMap st !! o); [done|].
  simpl. by apply (wf_same st).
Qed.

(** ** Invariants of evaluation *)

Lemma and_then_Some r k o st' :
  and_then r k = Some (o, st') →
  (∃ v st1, r = Some (Ret v, st1) ∧ k v st1 = Some (o, st'))
  ∨ (∃ x, r = Some (Thrown x, st') ∧ o = Thrown x).
Proof.
  destruct r as [[[v|x] st1]|]; simpl; [|intros [= <- <-]|done]; eauto.
Qed.

Section Invariant.
(** A property [P] of states that every step of the library keeps, given
    that [trigger] only calls effects with the property [Q], which the
    members of the dependency sets have. *)
Variable P : state → Prop.
Variable Q : nat → Prop.
Hypothesis P_vars : ∀ vs st, P st → P (set_vars vs st).
Hypothesis P_heap : ∀ h st, P st → P (set_heap h st).
Hypothesis P_reactive : ∀ v st, P st → P (reactive v st).2.
Hypothesis P_track : ∀ T k st, P st → P (track T k st).
Hypothesis P_stop : ∀ e st, P st → P (stop e st).
Hypothesis P_new : ∀ body sched st,
  P st → P (set_effects (effects st ++ [mkEffect true [] body sched]) st).
Hypothesis P_enter : ∀ e eff st,
  effects st !! e = Some eff → active eff = true →
  P st → P (set_activeEffect (Some e) st).
Hypothesis P_exit : ∀ st, P st → P (set_activeEffect None st).
Hypothesis P_members : ∀ st dep s e,
  P st → sets st !! dep = Some s → e ∈ s → Q e.
Hypothesis P_log : ∀ e st,
  Q e → P st → P (log_event (Ran e) st) ∧ P (log_event (Scheduled e) st).

Section Frame.
Variable call : term → state → result.
Hypothesis P_call : ∀ t st o st', P st → call t st = Some (o, st') → P st'.

Lemma run_invariant e st o st' :
  P st → run call e st = Some (o, st') → P st'.
Proof.
  intros HP. unfold run. destruct (effects st !! e) as [eff|] eqn:He.
  - destruct (active eff) eqn:Ha; simpl.
    + destruct (call (fn eff) _) as [[o1 st1]|] eqn:Hc; [|done].
      intros [= <- <-]. apply P_exit. eapply P_call; [|done]. by eapply P_enter.
    + by apply P_call.
  - by intros [= <- <-].
Qed.

Lemma invoke_invariant e st o st' :
  Q e → P st → invoke call e st = Some (o, st') → P st'.
Proof.
  intros HQ HP. unfold invoke. destruct (effects st !! e) as [eff|].
  - destruct (scheduler eff).
    + apply P_call. by apply P_log.
    + apply run_invariant. by apply P_log.
  - by intros [= <- <-].
Qed.

Lemma forEach_invariant snapshot st o st' :
  Forall Q snapshot →
  P st → forEach call snapshot st = Some (o, st') → P st'.
Proof.
  intros HQ. revert st.
  induction HQ as [|e rest He Hrest IH]; intros st HP; simpl.
  - by intros [= <- <-].
  - intros [(v & st1 & Hi & Hk) | (x & Hi & ->)]%and_then_Some.
    + eapply IH; [|done]. by eapply invoke_invariant.
    + by eapply invoke_invariant.
Qed.

Lemma trigger_invariant T k st o st' :
  P st → trigger call T k st = Some (o, st') → P st'.
Proof.
  intros HP. unfold trigger. destruct (targetMap st !! T) as [m|].
  - destruct (m !! k) as [dep|].
    + apply forEach_invariant; [|done].
      destruct (sets st !! dep) as [s|] eqn:Hs; [simpl|done].
      apply Forall_forall. intros e He. by eapply P_members.
    + by intros [= <- <-].
  - by intros [= <- <-].
Qed.

Lemma proxy_set_invariant T k v st o st' :
  P st → proxy_set call T k v st = Some (o, st') → P st'.
Proof.
  intros HP. unfold proxy_set. destruct (negb _).
  - intros [(v1 & st1 & Hi & Hk) | (x & Hi & ->)]%and_then_Some.
    + injection Hk as <- <-. eapply trigger_invariant; [|done]. by apply P_heap.
    + eapply trigger_invariant; [|done]. by apply P_heap.
  - intros [= <- <-]. by apply P_heap.
Qed.

Lemma ev_invariant t st o st' :
  P st → ev call t st = Some (o, st') → P st'.
Proof.
  revert st o st'.
  induction t as [v|x|x t IH|f t IH|f t1 IH1 t2 IH2|t1 IH1 t2 IH2
                  |c IHc t1 IH1 t2 IH2|t IH|props|t IH k|t1 IH1 k t2 IH2
                  |t IH|body _|body _|body _ sched _|e|e];
    intros st o st' HP; simpl.
  - by intros [= <- <-].
  - by intros [= <- <-].
  - intros [(v & st1 & Hi & Hk) | (x' & Hi & ->)]%and_then_Some; [|by eauto].
    injection Hk as <- <-. apply P_vars. by eauto.
  - intros [(v & st1 & Hi & Hk) | (x' & Hi & ->)]%and_then_Some; [|by eauto].
    injection Hk as <- <-. by eauto.
  - intros [(v1 & st1 & Hi & Hk) | (x' & Hi & ->)]%and_then_Some; [|by eauto].
    apply and_then_Some in Hk as [(v2 & st2 & Hi2 & Hk) | (x' & Hi2 & ->)];
      [|by eauto].
    injection Hk as <- <-. by eauto.
  - intros [(v & st1 & Hi & Hk) | (x' & Hi & ->)]%and_then_Some; by eauto.
  - intros [(v & st1 & Hi & Hk) | (x' & Hi & ->)]%and_then_Some; [|by eauto].
    destruct (truthy v); by eauto.
  - intros [(v & st1 & Hi & Hk) | (x' & Hi & ->)]%and_then_Some; [|by eauto].
    injection Hk as <- <-. by eauto.
  - intros [= <- <-]. by apply P_heap.
  - intros [(vo & st1 & Hi & Hk) | (x' & Hi & ->)]%and_then_Some; [|by eauto].
    apply IH in Hi; [|done].
    destruct vo; try (injection Hk as <- <-; done).
    destruct (proxies st1 !! p) as [T|]; [|injection Hk as <- <-; done].
    unfold proxy_get in Hk. destruct (String.eqb k IS_REACTIVE).
    + by injection Hk as <- <-.
    + injection Hk as <- <-. by apply P_track.
  - intros [(vo & st1 & Hi & Hk) | (x' & Hi & ->)]%and_then_Some; [|by eauto].
    apply IH1 in Hi; [|done].
    apply and_then_Some in Hk as [(v & st2 & Hi2 & Hk) | (x' & Hi2 & ->)];
      [|by eauto].
    apply IH2 in Hi2; [|done].
    destruct vo; try (injection Hk as <- <-; done).
    + injection Hk as <- <-. by apply P_heap.
    + destruct (proxies st2 !! p) as [T|]; [|injection Hk as <- <-; done].
      apply and_then_Some in Hk as [(v3 & st3 & Hi3 & Hk) | (x' & Hi3 & ->)].
      * injection Hk as <- <-. by eapply proxy_set_invariant.
      * by eapply proxy_set_invariant.
  - intros [(v & st1 & Hi & Hk) | (x' & Hi & ->)]%and_then_Some; [|by eauto].
    apply IH in Hi; [|done]. pose proof (P_reactive v st1 Hi) as HR.
    destruct (reactive v st1) as [r st2]. by injection Hk as <- <-.
  - unfold effect.
    intros [(v & st1 & Hi & Hk) | (x' & Hi & ->)]%and_then_Some.
    + injection Hk as <- <-. eapply run_invariant; [|done]. by apply P_new.
    + eapply run_invariant; [|done]. by apply P_new.
  - intros [= <- <-]. by apply P_new.
  - intros [= <- <-]. by apply P_new.
  - by apply run_invariant.
  - destruct (effects st !! e); intros [= <- <-]; [by apply P_stop|done].
Qed.
End Frame.

Lemma eval_invariant d t st o st' :
  P st → eval d t st = Some (o, st') → P st'.
Proof.
  revert t st o st'. induction d as [|d IH]; intros t st o st' HP; [done|].
  simpl. by apply ev_invariant.
Qed.
End Invariant.

(** Every evaluation of client code, whatever it calls in the library and
    whether it returns or throws, keeps the dependency graph consistent. *)
Lemma eval_wf d t st o st' :
  wf st → eval d t st = Some (o, st') → wf st'.
Proof.
  apply (eval_invariant wf (λ _, True)).
  - intros vs s Hs. by apply (wf_same s).
  - intros h s Hs. by apply (wf_same s).
  - apply wf_reactive.
  - apply wf_track.
  - apply wf_stop.
  - intros body sched s Hs. by apply wf_new_effect.
  - intros e eff s He _ Hs. apply wf_set_activeEffect; [|done].
    intros e' [= <-]. by eapply lookup_lt_Some.
  - intros s Hs. by apply wf_set_activeEffect.
  - done.
  - intros e s _ Hs. split; by apply (wf_same s).
Qed.

(** C8, as the code has it: when the user function of an effect throws
    during [run], [run] passes the same exception on to its caller.  For
    an active effect the [finally] block has then emptied the
    active-effect slot, whatever it held on entry; the state left is the
    one a normal return of the function from the same point leaves, and
    the dependency graph is consistent in it. *)
Theorem run_propagates_throw (d e : nat) (eff : ReactiveEffect)
    (st st1 : state) (x : value) :
  wf st → effects st !! e = Some eff →
  eval d (fn eff) (if active eff then set_activeEffect (Some e) st else st)
  = Some (Thrown x, st1) →
  let st' := if active eff then set_activeEffect None st1 else st1 in
  run (eval d) e st = Some (Thrown x, st')
  ∧ (active eff = true → activeEffect st' = None)
  ∧ wf st'
  ∧ ∀ call v,
      call (fn eff) (if active eff then set_activeEffect (Some e) st else st)
      = Some (Ret v, st1) →
      run call e st = Some (Ret v, st').
Proof.
  intros Hwf He Hb st'. subst st'. split_and!.
  - unfold run. rewrite He. destruct (active eff); simpl; by rewrite Hb.
  - by intros ->.
  - destruct (active eff).
    + apply wf_set_activeEffect; [done|]. eapply eval_wf; [|done].
      apply wf_set_activeEffect; [|done]. intros e' [= <-]. by eapply lookup_lt_Some.
    + by eapply eval_wf.
  - intros call v Hc. unfold run. rewrite He. destruct (active eff); simpl; by rewrite Hc.
Qed.

(** An effect whose function throws at once. *)
Lemma run_propagates_throw_witness :
  let st1 := set_activeEffect (Some 0) one_throwing_effect in
  let st' := set_activeEffect None st1 in
  run (eval 1) 0 one_throwing_effect = Some (Thrown (VStr "boom"), st')
  ∧ (true = true → activeEffect st' = None)
  ∧ wf st'
  ∧ ∀ call v,
      call throwing_body st1 = Some (Ret v, st1) →
      run call 0 one_throwing_effect = Some (Ret v, st').
Proof.
  apply (run_propagates_throw 1 0 (mkEffect true [] throwing_body None)
           one_throwing_effect (set_activeEffect (Some 0) one_throwing_effect)
           (VStr "boom")).
  - apply (wf_new_effect _ empty_state); [reflexivity|apply wf_empty].
  - reflexivity.
  - reflexivity.
Defined.

(** C8, as the claim states it, fails: inside the run of effect 0 (the
    slot holds effect 0) effect 1 is run and its function throws; the
    exception is passed on, and the slot is then empty, not restored to
    effect 0.  A read of [observed.count] that the function of effect 0
    makes after the failed run is not tracked, while the same read made
    before it subscribes effect 0. *)
Lemma throwing_run_does_not_restore_slot :
  activeEffect inside_effect_with_thrower = Some 0
  ∧ ∃ st', run (eval 1) 1 inside_effect_with_thrower
           = Some (Thrown (VStr "boom"), st')
      ∧ activeEffect st' = None
      ∧ activeEffect st' ≠ activeEffect inside_effect_with_thrower
      ∧ eval 1 read_count st' = Some (Ret (VNum 0), st')
      ∧ subscribers 0 "count" st' = []
      ∧ subscribers 0 "count"
          (state_after 1 read_count inside_effect_with_thrower) = [0].
Proof.
  split; [reflexivity|]. eexists. split; [vm_compute; reflexivity|].
  split_and!; vm_compute; first [reflexivity | discriminate].
Qed.

(** ** Subscriptions made by reads *)

Lemma subscribers_same st st' T k :
  targetMap st' = targetMap st → sets st' = sets st →
  subscribers T k st' = subscribers T k st.
Proof. intros Ht Hs. unfold subscribers, dep_of. by rewrite Ht, Hs. Qed.

Lemma subscribers_subscribe T k dep e st e' T' k' :
  wf st → dep_of T k st = Some dep →
  e' ∈ subscribers T' k' (subscribe dep e st)
  ↔ e' ∈ subscribers T' k' st ∨ (T' = T ∧ k' = k ∧ e' = e).
Proof.
  intros Hwf Hd.
  pose proof (wf_refs _ Hwf _ _ _ Hd) as Hlt.
  destruct (lookup_lt_is_Some_2 _ _ Hlt) as [s Hs].
  unfold subscribe, dep_has. rewrite Hs. case_bool_decide as Hin.
  - split; [by left|]. intros [?|(-> & -> & ->)]; [done|].
    unfold subscribers. by rewrite Hd, Hs.
  - unfold subscribers, dep_of. simpl. fold (dep_of T' k' st).
    destruct (dep_of T' k' st) as [dep'|] eqn:Hd'.
    + rewrite list_lookup_alter. destruct (decide (dep = dep')) as [<-|Hne].
      * destruct (wf_inj _ Hwf _ _ _ _ _ Hd Hd') as [<- <-]. rewrite Hs. simpl.
        rewrite elem_of_app, list_elem_of_singleton. tauto.
      * split; [by left|]. intros [?|(-> & -> & ->)]; [done|]. congruence.
    + split; [by left|]. intros [?|(-> & -> & ->)]; [done|congruence].
Qed.

Lemma track_subscribers T k e st e' T' k' :
  wf st → activeEffect st = Some e →
  e' ∈ subscribers T' k' (track T k st)
  ↔ e' ∈ subscribers T' k' st ∨ (T' = T ∧ k' = k ∧ e' = e).
Proof.
  intros Hwf Ha. rewrite (track_eq _ _ _ _ Ha).
  assert (Hlog : wf (log_collected T k e st)) by by apply (wf_same st).
  destruct (dep_of T k st) as [dep|] eqn:Hd.
  - rewrite (subscribers_subscribe T k) by done.
    by rewrite (subscribers_same st).
  - pose proof (wf_alloc T k _ Hlog Hd) as Hal. simpl in Hal.
    rewrite (subscribers_subscribe T k); [|done|].
    2:{ erewrite dep_of_alloc by reflexivity. by rewrite decide_True. }
    assert (subscribers T' k'
              (set_targetMap
                 (<[T := <[k := length (sets st)]> (default ∅ (targetMap st !! T))]>
                    (targetMap st))
                 (set_sets (sets st ++ [[]]) (log_collected T k e st)))
            = subscribers T' k' st) as ->; [|done].
    unfold subscribers. erewrite dep_of_alloc by reflexivity. simpl.
    destruct (decide (T' = T ∧ k' = k)) as [[-> ->]|Hne].
    + rewrite Hd. by rewrite lookup_app_r, Nat.sub_diag by lia.
    + destruct (dep_of T' k' st) as [dep'|] eqn:Hd'; [|done].
      rewrite lookup_app_l; [done|]. by eapply wf_refs.
Qed.

Lemma track_collected T k e st :
  activeEffect st = Some e →
  collected (track T k st) = collected st ++ [(T, k, e)]
  ∧ activeEffect (track T k st) = Some e.
Proof.
  intros Ha. rewrite (track_eq _ _ _ _ Ha). unfold subscribe.
  destruct (dep_of T k st); destruct (dep_has _ _ _); done.
Qed.







Lemma state_after_wf d t st : wf st → wf (state_after d t st).
Proof.
  intros Hwf. unfold state_after.
  destruct (eval d t st) as [[o st']|] eqn:He; [by eapply eval_wf|done].
Qed.

Lemma wf_observed_count : wf observed_count.
Proof.
  unfold observed_count.
  destruct (eval 1 _ empty_state) as [[o st']|] eqn:He; [|apply wf_empty].
  eapply eval_wf; [apply wf_empty|done].
Qed.

Lemma wf_after_first_run : wf after_first_run.
Proof. apply state_after_wf, wf_empty. Qed.



(** ** What the graph operations leave alone *)

Lemma subscribe_frame dep e st :
  heap (subscribe dep e st) = heap st
  ∧ proxies (subscribe dep e st) = proxies st
  ∧ reactiveMap (subscribe dep e st) = reactiveMap st
  ∧ targetMap (subscribe dep e st) = targetMap st
  ∧ activeEffect (subscribe dep e st) = activeEffect st
  ∧ vars (subscribe dep e st) = vars st
  ∧ collected (subscribe dep e st) = collected st
  ∧ fired (subscribe dep e st) = fired st.
Proof. unfold subscribe. by destruct (dep_has dep e st). Qed.

Lemma track_frame T k st :
  heap (track T k st) = heap st
  ∧ proxies (track T k st) = proxies st
  ∧ reactiveMap (track T k st) = reactiveMap st
  ∧ activeEffect (track T k st) = activeEffect st
  ∧ vars (track T k st) = vars st
  ∧ fired (track T k st) = fired st.
Proof.
  destruct (activeEffect st) as [e|] eqn:Ha; [|unfold track; by rewrite Ha].
  rewrite (track_eq _ _ _ _ Ha).
  destruct (dep_of T k st);
    match goal with
    | |- context [subscribe ?d ?e ?s] =>
        destruct (subscribe_frame d e s) as (-> & -> & -> & _ & -> & -> & _ & ->)
    end; done.
Qed.

(** [track] changes an effect only by appending to its [deps]. *)
Lemma track_effects T k st :
  effects (track T k st) = effects st
  ∨ ∃ e dep,
      effects (track T k st)
      = alter (λ eff, mkEffect (active eff) (deps eff ++ [dep]) (fn eff) (scheduler eff))
              e (effects st).
Proof.
  destruct (activeEffect st) as [e|] eqn:Ha; [|left; unfold track; by rewrite Ha].
  rewrite (track_eq _ _ _ _ Ha). unfold subscribe.
  destruct (dep_of T k st); destruct (dep_has _ _ _); simpl; eauto.
Qed.

Lemma Reflect_get_same st st' T k :
  heap st' = heap st → Reflect_get T k st' = Reflect_get T k st.
Proof. intros H. unfold Reflect_get. by rewrite H. Qed.

(** ** Re-entrancy *)

Lemma self_incrementing_subscribers st :
  self_incrementing st → 0 ∈ subscribers 0 "count" st →
  subscribers 0 "count" st = [0].
Proof.
  intros (Hwf & _ & _ & _ & ds & He). unfold subscribers.
  destruct (dep_of 0 "count" st) as [dep|]; [|by intros ?%elem_of_nil].
  destruct (sets st !! dep) as [s|] eqn:Hs; [simpl|by intros ?%elem_of_nil].
  intros Hin. pose proof (wf_nodup _ Hwf _ _ Hs) as Hnd.
  assert (Hall : ∀ x, x ∈ s → x = 0).
  { intros x Hx. destruct (wf_member _ Hwf _ _ _ Hs Hx) as (eff & Hx' & _).
    rewrite He in Hx'. apply lookup_lt_Some in Hx'. simpl in Hx'. lia. }
  destruct s as [|a [|b s]].
  - by apply elem_of_nil in Hin.
  - f_equal. apply Hall, list_elem_of_here.
  - exfalso. apply NoDup_cons in Hnd as [Hnot _]. apply Hnot.
    rewrite (Hall a), (Hall b); [apply list_elem_of_here|..].
    + apply list_elem_of_further, list_elem_of_here.
    + apply list_elem_of_here.
Qed.

Lemma ev_get_proxy call x p T k st :
  vars st !! x = Some (VProxy p) → proxies st !! p = Some T →
  String.eqb k IS_REACTIVE = false →
  ev call (Get (Var x) k) st
  = Some (Ret (Reflect_get T k (track T k st)), track T k st).
Proof.
  intros Hv Hp Hk. simpl. rewrite Hv. simpl. rewrite Hp.
  unfold proxy_get. by rewrite Hk.
Qed.

Lemma ev_op1 call f t st :
  ev call (Op1 f t) st = and_then (ev call t st) (λ v st1, Some (Ret (f v), st1)).
Proof. reflexivity. Qed.

Lemma ev_put_proxy call x p T k t v st st' :
  vars st !! x = Some (VProxy p) →
  ev call t st = Some (Ret v, st') →
  proxies st' !! p = Some T →
  ev call (Put (Var x) k t) st
  = and_then (proxy_set call T k v st') (λ _ st3, Some (Ret v, st3)).
Proof.
  intros Hv Ht Hp. simpl. rewrite Hv. simpl. rewrite Ht. simpl. by rewrite Hp.
Qed.

(** The run of the self-incrementing effect calls itself again through
    [trigger], one stack frame deeper each time: no bound on the depth of
    the call stack is enough for it to complete. *)
Lemma self_incrementing_run d st :
  self_incrementing st → run (eval d) 0 st = None.
Proof.
  revert st. induction d as [|d IH]; intros st Hinv.
  - destruct Hinv as (_ & _ & _ & _ & ds & He).
    unfold run. by rewrite He.
  - destruct Hinv as (Hwf & Hv & Hp & [n Hn] & ds & He).
    erewrite run_active; [|by rewrite He|done].
    set (st1 := set_activeEffect (Some 0) st).
    assert (Hwf1 : wf st1).
    { apply wf_set_activeEffect; [|done]. intros e [= <-]. rewrite He. simpl. lia. }
    set (st2 := track 0 "count" st1).
    destruct (track_frame 0 "count" st1) as (Hh2 & Hp2 & _ & Ha2 & Hv2 & _).
    fold st2 in Hh2, Hp2, Ha2, Hv2.
    assert (Hn2 : Reflect_get 0 "count" st2 = VNum n).
    { rewrite (Reflect_get_same st1 st2) by done.
      by rewrite (Reflect_get_same st st1). }
    cbn [eval fn]. unfold increment_body.
    rewrite (ev_put_proxy _ _ 0 0 _ _ (VNum (n + 1)) st1 st2); [|done| |by rewrite Hp2].
    2:{ rewrite ev_op1, (ev_get_proxy _ _ 0 0) by done. fold st2.
        rewrite Hn2. done. }
    unfold proxy_set. rewrite Hn2.
    assert (strict_eq (VNum n) (VNum (n + 1)) = false) as ->.
    { simpl. apply Z.eqb_neq. lia. }
    cbn [negb].
    set (st3 := Reflect_set 0 "count" (VNum (n + 1)) st2).
    assert (Hwf2 : wf st2) by by apply wf_track.
    assert (He2 : ∃ ds2, effects st2 = [mkEffect true ds2 increment_body None]).
    { destruct (track_effects 0 "count" st1) as [Hsame | (e & dep & Halt)];
        fold st2 in Hsame || fold st2 in Halt.
      - rewrite Hsame. simpl. by eauto.
      - rewrite Halt. simpl. rewrite He. destruct e as [|e]; simpl; by eauto. }
    assert (Hinv3 : self_incrementing (log_event (Ran 0) st3)).
    { split_and!.
      - by apply (wf_same st2).
      - simpl. by rewrite Hv2.
      - simpl. by rewrite Hp2.
      - exists (n + 1)%Z. unfold Reflect_get, st3. simpl.
        rewrite list_lookup_alter_eq.
        unfold Reflect_get in Hn2.
        destruct (heap st2 !! 0) as [props|]; [|done]. simpl.
        by rewrite lookup_insert_eq.
      - done. }
    assert (Hsub : subscribers 0 "count" st2 = [0]).
    { apply self_incrementing_subscribers.
      - split_and!; [done|by rewrite Hv2|by rewrite Hp2|by exists n|done].
      - apply (track_subscribers 0 "count" 0 st1); [done..|]. by right. }
    unfold trigger. unfold subscribers, dep_of in Hsub.
    change (targetMap st3) with (targetMap st2).
    change (sets st3) with (sets st2).
    destruct (targetMap st2 !! 0) as [m|]; [simpl in Hsub|done].
    destruct (m !! "count") as [dep|]; [|done].
    rewrite Hsub. cbn [forEach]. unfold invoke.
    destruct He2 as [ds2 He2].
    change (effects st3) with (effects st2). rewrite He2.
    cbn [lookup list_lookup scheduler].
    by rewrite IH.
Qed.

(** C3, at the failing input: registering the effect that reads
    [observed.count] and writes [observed.count + 1] back does not
    complete within any depth of the call stack; the write made by each
    run triggers the next run. *)
Theorem increment_effect_never_completes (depth : nat) :
  eval depth (Effect increment_body) observed_count = None.
Proof.
  destruct depth as [|d]; [done|]. cbn [eval ev]. unfold effect.
  rewrite self_incrementing_run; [done|].
  split_and!.
  - apply wf_new_effect; [done|]. apply wf_observed_count.
  - reflexivity.
  - reflexivity.
  - by exists 0%Z.
  - by exists [].
Qed.

(** ** Calm code *)

Lemma same_code_refl st : same_code st st.
Proof. intros e eff He. by exists eff. Qed.

Lemma same_code_trans st1 st2 st3 :
  same_code st1 st2 → same_code st2 st3 → same_code st1 st3.
Proof.
  intros H1 H2 e eff He. destruct (H1 _ _ He) as (eff2 & He2 & Hf2 & Hs2).
  destruct (H2 _ _ He2) as (eff3 & He3 & Hf3 & Hs3).
  exists eff3. split_and!; [done|congruence..].
Qed.

Lemma same_code_alter f e st st' :
  (∀ eff, fn (f eff) = fn eff ∧ scheduler (f eff) = scheduler eff) →
  effects st' = alter f e (effects st) → same_code st st'.
Proof.
  intros Hf He' e0 eff He0. rewrite He', list_lookup_alter.
  destruct (decide (e = e0)) as [->|]; [|by exists eff].
  rewrite He0. simpl. exists (f eff). split; [done|]. apply Hf.
Qed.

Lemma same_code_insert e eff eff' st st' :
  effects st !! e = Some eff → fn eff' = fn eff → scheduler eff' = scheduler eff →
  effects st' = <[e := eff']> (effects st) → same_code st st'.
Proof.
  intros He Hf Hs He' e0 eff0 He0. rewrite He'.
  destruct (decide (e = e0)) as [<-|].
  - rewrite list_lookup_insert_eq by by eapply lookup_lt_Some.
    exists eff'. split; [done|]. split; congruence.
  - rewrite list_lookup_insert_ne by done. by exists eff0.
Qed.

Lemma same_code_mode st st' e :
  same_code st st' → is_Some (effects st !! e) → mode st' e = mode st e.
Proof.
  intros Hc [eff He]. destruct (Hc _ _ He) as (eff' & He' & _ & Hs).
  unfold mode. by rewrite He, He', Hs.
Qed.

Lemma calm_subscriber_kept d st st' e :
  same_code st st' → calm_subscriber d st e → calm_subscriber d st' e.
Proof.
  intros Hc (eff & He & Hcalm). destruct (Hc _ _ He) as (eff' & He' & Hf & Hs).
  exists eff'. split; [done|]. by rewrite Hs, Hf.
Qed.

Lemma quiet_refl st : quiet st st.
Proof. split_and!; [done|apply same_code_refl|done]. Qed.

Lemma quiet_trans st1 st2 st3 : quiet st1 st2 → quiet st2 st3 → quiet st1 st3.
Proof.
  intros (Hf1 & Hc1 & Hh1) (Hf2 & Hc2 & Hh2). split_and!.
  - congruence.
  - by eapply same_code_trans.
  - by eauto.
Qed.

Lemma quiet_same st st' :
  fired st' = fired st → effects st' = effects st → heap st' = heap st →
  quiet st st'.
Proof.
  intros Hf He Hh. split_and!; [done| |by rewrite Hh].
  intros e eff. rewrite He. by exists eff.
Qed.

Lemma quiet_track T k st : quiet st (track T k st).
Proof.
  destruct (track_frame T k st) as (Hh & _ & _ & _ & _ & Hf).
  split_and!; [done| |by rewrite Hh].
  destruct (track_effects T k st) as [Hsame | (e & dep & Halt)].
  - intros e eff. rewrite Hsame. by exists eff.
  - eapply same_code_alter; [|exact Halt]. intros eff. by split.
Qed.

Lemma cleanupEffect_frame e st :
  heap (cleanupEffect e st) = heap st
  ∧ proxies (cleanupEffect e st) = proxies st
  ∧ reactiveMap (cleanupEffect e st) = reactiveMap st
  ∧ targetMap (cleanupEffect e st) = targetMap st
  ∧ activeEffect (cleanupEffect e st) = activeEffect st
  ∧ vars (cleanupEffect e st) = vars st
  ∧ collected (cleanupEffect e st) = collected st
  ∧ fired (cleanupEffect e st) = fired st.
Proof.
  unfold cleanupEffect. destruct (effects st !! e) as [eff|]; [|done].
  by destruct (deps eff).
Qed.

Lemma stop_frame e st :
  heap (stop e st) = heap st
  ∧ proxies (stop e st) = proxies st
  ∧ reactiveMap (stop e st) = reactiveMap st
  ∧ targetMap (stop e st) = targetMap st
  ∧ activeEffect (stop e st) = activeEffect st
  ∧ vars (stop e st) = vars st
  ∧ collected (stop e st) = collected st
  ∧ fired (stop e st) = fired st.
Proof.
  unfold stop. destruct (effects st !! e) as [eff|] eqn:He; [|done].
  destruct (active eff); [|done].
  match goal with
  | |- context [cleanupEffect e ?s] =>
      destruct (cleanupEffect_frame e s) as (-> & -> & -> & -> & -> & -> & -> & ->)
  end.
  done.
Qed.

(** What [stop] leaves of a running effect: the flag down, [deps] empty. *)
Lemma stop_effect e eff st :
  effects st !! e = Some eff → active eff = true →
  effects (stop e st) = <[e := mkEffect false [] (fn eff) (scheduler eff)]> (effects st).
Proof.
  intros He Ha. unfold stop. rewrite He, Ha.
  pose proof (lookup_lt_Some _ _ _ He) as Hlt.
  erewrite cleanupEffect_eq; [|simpl; by apply list_lookup_insert_eq].
  simpl. destruct (deps eff) as [|d0 ds] eqn:Hd; simpl; [done|].
  by rewrite list_insert_insert_eq.
Qed.

Lemma quiet_stop e st : quiet st (stop e st).
Proof.
  destruct (stop_frame e st) as (Hh & _ & _ & _ & _ & _ & _ & Hf).
  split_and!; [done| |by rewrite Hh].
  destruct (effects st !! e) as [eff|] eqn:He.
  - destruct (active eff) eqn:Ha.
    + eapply same_code_insert; [done| | |by apply stop_effect]; done.
    + unfold stop. rewrite He, Ha. apply same_code_refl.
  - unfold stop. rewrite He. apply same_code_refl.
Qed.

Lemma quiet_new_effect eff st :
  quiet st (set_effects (effects st ++ [eff]) st).
Proof.
  split_and!; [done| |done]. intros e eff0 He. exists eff0.
  split; [|done]. by apply lookup_app_l_Some.
Qed.

Lemma quiet_reactive v st : quiet st (reactive v st).2.
Proof.
  unfold reactive. destruct (negb (truthy v) || negb (typeof_object v));
    [apply quiet_refl|].
  destruct (truthy (read_marker v st)); [apply quiet_refl|].
  destruct v; try apply quiet_refl.
  destruct (reactiveMap st !! o); [apply quiet_refl|]. by apply quiet_same.
Qed.

(** Calm code completes when the stack has room for its registrations,
    and all the way it triggers nothing. *)
Lemma calm_ev call n :
  (∀ t st, calm t = true → frames t < n →
     ∃ o st', call t st = Some (o, st') ∧ quiet st st') →
  ∀ t st, calm t = true → frames t ≤ n →
    ∃ o st', ev call t st = Some (o, st') ∧ quiet st st'.
Proof.
  intros Hcall t.
  induction t as [v|x|x t IH|f t IH|f t1 IH1 t2 IH2|t1 IH1 t2 IH2
                  |c IHc t1 IH1 t2 IH2|t IH|props|t IH k|t1 IH1 k t2 IH2
                  |t IH|body _|body _|body _ sched _|e0|e0];
    intros st Hc Hn; simpl in Hc, Hn; try done; simpl.
  - eexists _, _. split; [done|]. apply quiet_refl.
  - eexists _, _. split; [done|]. apply quiet_refl.
  - destruct (IH st Hc Hn) as ([v|y] & st1 & -> & Hq); simpl; [|by eauto].
    eexists _, _. split; [done|]. eapply quiet_trans; [done|]. by apply quiet_same.
  - destruct (IH st Hc Hn) as ([v|y] & st1 & -> & Hq); simpl; by eauto.
  - apply andb_prop in Hc as [Hc1 Hc2].
    destruct (IH1 st Hc1 ltac:(lia)) as ([v1|y] & st1 & -> & Hq1); simpl; [|by eauto].
    destruct (IH2 st1 Hc2 ltac:(lia)) as ([v2|y] & st2 & -> & Hq2); simpl;
      eexists _, _; (split; [done|]); by eapply quiet_trans.
  - apply andb_prop in Hc as [Hc1 Hc2].
    destruct (IH1 st Hc1 ltac:(lia)) as ([v1|y] & st1 & -> & Hq1); simpl; [|by eauto].
    destruct (IH2 st1 Hc2 ltac:(lia)) as (o & st2 & -> & Hq2).
    eexists _, _; (split; [done|]); by eapply quiet_trans.
  - apply andb_prop in Hc as [[Hcc Hc1]%andb_prop Hc2].
    destruct (IHc st Hcc ltac:(lia)) as ([v|y] & st1 & -> & Hq1); simpl; [|by eauto].
    destruct (truthy v).
    + destruct (IH1 st1 Hc1 ltac:(lia)) as (o & st2 & -> & Hq2).
      eexists _, _; (split; [done|]); by eapply quiet_trans.
    + destruct (IH2 st1 Hc2 ltac:(lia)) as (o & st2 & -> & Hq2).
      eexists _, _; (split; [done|]); by eapply quiet_trans.
  - destruct (IH st Hc Hn) as ([v|y] & st1 & -> & Hq); simpl; by eauto.
  - eexists _, _. split; [done|].
    split_and!; [done|intros e eff He; by exists eff|].
    intros o props' Ho. simpl. by apply lookup_app_l_Some.
  - destruct (IH st Hc Hn) as ([v|y] & st1 & -> & Hq); simpl; [|by eauto].
    destruct v; try by eauto.
    destruct (proxies st1 !! p) as [T|]; [|by eauto].
    unfold proxy_get. destruct (String.eqb k IS_REACTIVE); [by eauto|].
    eexists _, _. split; [done|]. eapply quiet_trans; [done|]. apply quiet_track.
  - destruct (IH st Hc Hn) as ([v|y] & st1 & -> & Hq); simpl; [|by eauto].
    pose proof (quiet_reactive v st1) as Hqr.
    destruct (reactive v st1) as [r st2]. eexists _, _. split; [done|].
    by eapply quiet_trans.
  - unfold effect, run. simpl.
    rewrite lookup_app_r, Nat.sub_diag by lia. simpl.
    destruct (Hcall body
                (set_activeEffect (Some (length (effects st)))
                   (set_effects (effects st ++ [mkEffect true [] body None]) st))
                Hc ltac:(lia)) as (o & st1 & -> & Hq).
    assert (Hq' : quiet st (set_activeEffect None st1)).
    { eapply quiet_trans; [apply (quiet_new_effect (mkEffect true [] body None))|].
      eapply quiet_trans; [|eapply quiet_trans; [exact Hq|]]; by apply quiet_same. }
    destruct o; simpl; by eauto.
  - eexists _, _. split; [done|]. apply quiet_new_effect.
  - eexists _, _. split; [done|]. apply quiet_new_effect.
  - destruct (effects st !! e0); eexists _, _; (split; [done|]);
      [apply quiet_stop|apply quiet_refl].
Qed.

Lemma calm_eval d t st :
  calm t = true → frames t ≤ d →
  ∃ o st', eval (S d) t st = Some (o, st') ∧ quiet st st'.
Proof.
  revert t st. induction d as [|d IH]; intros t st Hc Hn.
  - apply (calm_ev _ 0); [|done..]. intros t' st' _ Hlt. lia.
  - apply (calm_ev _ (S d)); [|done..]. intros t' st' Hc' Hlt.
    apply IH; [done|lia].
Qed.

(** ** What [trigger] calls *)

Lemma invoke_calm d e st :
  calm_subscriber d st e →
  ∃ o st', invoke (eval (S d)) e st = Some (o, st')
    ∧ fired st' = fired st ++ [mode st e]
    ∧ same_code st st'
    ∧ ∀ o props, heap st !! o = Some props → heap st' !! o = Some props.
Proof.
  intros (eff & He & Hm). unfold invoke, mode. rewrite He.
  destruct (scheduler eff) as [sched|] eqn:Hs.
  - destruct Hm as [Hc Hn].
    destruct (calm_eval d sched (log_event (Scheduled e) st) Hc Hn)
      as (o & st' & -> & Hf & Hcode & Hh).
    by exists o, st'.
  - destruct Hm as [Hc Hn]. unfold run.
    change (effects (log_event (Ran e) st)) with (effects st). rewrite He.
    destruct (active eff); cbn [negb].
    + destruct (calm_eval d (fn eff)
                  (set_activeEffect (Some e) (log_event (Ran e) st)) Hc Hn)
        as (o & st' & -> & Hf & Hcode & Hh).
      by exists o, (set_activeEffect None st').
    + destruct (calm_eval d (fn eff) (log_event (Ran e) st) Hc Hn)
        as (o & st' & -> & Hf & Hcode & Hh).
      by exists o, st'.
Qed.

Lemma forEach_calm d snapshot st :
  Forall (calm_subscriber d st) snapshot →
  ∃ o st' n, forEach (eval (S d)) snapshot st = Some (o, st')
    ∧ fired st' = fired st ++ (mode st <$> take n snapshot)
    ∧ (∀ v, o = Ret v → n = length snapshot)
    ∧ same_code st st'
    ∧ ∀ o props, heap st !! o = Some props → heap st' !! o = Some props.
Proof.
  revert st. induction snapshot as [|e rest IH]; intros st Hall.
  - exists (Ret VUndefined), st, 0. simpl.
    split_and!; [done|by rewrite app_nil_r|done|apply same_code_refl|done].
  - apply Forall_cons in Hall as [He Hrest].
    destruct (invoke_calm d e st He) as (o1 & st1 & Hi & Hf1 & Hc1 & Hh1).
    cbn [forEach]. rewrite Hi. destruct o1 as [v1|x]; cbn [and_then].
    + destruct (IH st1) as (o & st' & n & -> & Hf & Hn & Hc & Hh).
      { eapply Forall_impl; [done|]. intros e' He'. by eapply calm_subscriber_kept. }
      exists o, st', (S n). split_and!; [done| |by intros v ->%Hn| |by eauto].
      * rewrite Hf, Hf1. cbn [take fmap list_fmap]. rewrite <- app_assoc. simpl.
        do 2 f_equal. apply Forall_fmap_ext_1, Forall_take.
        eapply Forall_impl; [done|]. intros e' (eff' & He' & _).
        by apply same_code_mode.
      * by eapply same_code_trans.
    + exists (Thrown x), st1, 1. by split_and!.
Qed.

(** Whatever the user functions do, evaluation only appends to the record
    of calls and leaves the functions of the existing effects as they are. *)
Lemma eval_grows d t st o st' :
  eval d t st = Some (o, st') →
  fired st `prefix_of` fired st' ∧ same_code st st'.
Proof.
  intros He.
  apply (eval_invariant (λ s, fired st `prefix_of` fired s ∧ same_code st s)
           (λ _, True))
    with (d := d) (t := t) (st := st) (o := o);
    [..|split; [reflexivity|apply same_code_refl]|done].
  - by intros vs s [? ?].
  - by intros h s [? ?].
  - intros v s [Hp Hc]. destruct (quiet_reactive v s) as (Hf & Hc' & _).
    split; [by rewrite Hf|by eapply same_code_trans].
  - intros T k s [Hp Hc]. destruct (quiet_track T k s) as (Hf & Hc' & _).
    split; [by rewrite Hf|by eapply same_code_trans].
  - intros e s [Hp Hc]. destruct (quiet_stop e s) as (Hf & Hc' & _).
    split; [by rewrite Hf|by eapply same_code_trans].
  - intros body sched s [Hp Hc].
    destruct (quiet_new_effect (mkEffect true [] body sched) s) as (Hf & Hc' & _).
    split; [done|by eapply same_code_trans].
  - by intros e eff s _ _ [? ?].
  - by intros s [? ?].
  - done.
  - intros e s _ [Hp Hc]. split; (split; [|done]); simpl; by apply prefix_app_r.
Qed.

Lemma invoke_logs d e st o st' :
  is_Some (effects st !! e) →
  invoke (eval d) e st = Some (o, st') →
  same_code st st' ∧ ∃ l, fired st' = fired st ++ mode st e :: l.
Proof.
  intros [eff He]. unfold invoke, mode. rewrite He.
  assert (Hgrow : ∀ ev s o1 st1,
            effects s = effects st → fired s = fired st ++ [ev] →
            eval d (fn eff) s = Some (o1, st1) ∨
            (∃ sched, scheduler eff = Some sched ∧ eval d sched s = Some (o1, st1)) →
            same_code st st1 ∧ ∃ l, fired st1 = fired st ++ ev :: l).
  { intros ev s o1 st1 Hes Hfs Hev.
    assert (fired s `prefix_of` fired st1 ∧ same_code s st1) as [[l Hl] Hc].
    { destruct Hev as [Hev | (sched & _ & Hev)]; by eapply eval_grows. }
    split.
    - intros e0 eff0 He0. apply Hc. by rewrite Hes.
    - exists l. by rewrite Hl, Hfs, <- app_assoc. }
  destruct (scheduler eff) as [sched|] eqn:Hs.
  - intros Hev.
    apply (Hgrow (Scheduled e) (log_event (Scheduled e) st) o st' eq_refl eq_refl).
    right. by exists sched.
  - unfold run. change (effects (log_event (Ran e) st)) with (effects st).
    rewrite He. destruct (active eff); cbn [negb].
    + destruct (eval d (fn eff) _) as [[o1 st1]|] eqn:Hev; [|done].
      intros [= <- <-].
      destruct (Hgrow (Ran e) (set_activeEffect (Some e) (log_event (Ran e) st))
                  o1 st1 eq_refl eq_refl (or_introl Hev)) as [Hc Hl].
      by split.
    + intros Hev.
      apply (Hgrow (Ran e) (log_event (Ran e) st) o st' eq_refl eq_refl).
      by left.
Qed.

Lemma trigger_forEach call T k st :
  trigger call T k st = forEach call (subscribers T k st) st.
Proof.
  unfold trigger, subscribers, dep_of.
  destruct (targetMap st !! T) as [m|]; simpl; [|done]. by destruct (m !! k).
Qed.

(** *** The calls of [trigger] in terms of the user's functions *)

(** The callback of [forEach] reads the scheduler and the function from
    the instance as it is when the call is made; they are those of the
    instance recorded with the copy as long as the two agree. *)
Lemma invoke_call_subscriber d e eff eff' st :
  effects st !! e = Some eff' → fn eff' = fn eff →
  scheduler eff' = scheduler eff →
  invoke (eval d) e st = call_subscriber d e eff st.
Proof.
  intros He Hf Hs. unfold invoke, call_subscriber, run, is_active.
  rewrite He, Hs. destruct (scheduler eff); [done|].
  cbn [effects log_event]. rewrite He, Hf. by destruct (active eff').
Qed.

(** No call changes the function or the scheduler of an instance
    ([invoke_logs]), so the agreement lasts through the whole walk. *)
Lemma forEach_call_in_order d copy st :
  Forall (carries st) copy →
  forEach (eval d) copy.*1 st = call_in_order d copy st.
Proof.
  revert st. induction copy as [|[e eff] rest IH]; intros st Hall; [done|].
  apply Forall_cons in Hall as [(eff' & He & Hf & Hs) Hrest].
  cbn [fmap list_fmap forEach call_in_order fst] in *.
  rewrite <- (invoke_call_subscriber d e eff eff' st He Hf Hs).
  destruct (invoke (eval d) e st) as [[[v|x] st1]|] eqn:Hi; [|done..].
  cbn [and_then]. apply IH.
  destruct (invoke_logs d e st (Ret v) st1) as [Hc _]; [by eauto|done|].
  eapply Forall_impl; [exact Hrest|].
  intros [e1 eff1] (eff1' & He1 & Hf1 & Hs1).
  destruct (Hc _ _ He1) as (eff2 & He2 & Hf2 & Hs2).
  exists eff2. cbn in *. split_and!; congruence.
Qed.

(** In a consistent graph every subscriber is an existing instance, so
    the copy has all the members of the set. *)
Lemma snapshot_members T k st :
  wf st → (snapshot T k st).*1 = subscribers T k st.
Proof.
  intros Hwf. unfold snapshot.
  assert (Hall : Forall (λ e, is_Some (effects st !! e)) (subscribers T k st)).
  { unfold subscribers. destruct (dep_of T k st) as [dep|]; [|done].
    destruct (sets st !! dep) as [s|] eqn:Hs; [simpl|done].
    apply Forall_forall. intros e Hin.
    destruct (wf_member _ Hwf _ _ _ Hs Hin) as (eff & He & _). by eauto. }
  induction Hall as [|e l [eff He] _ IH]; [done|].
  cbn [omap list_omap]. rewrite He. cbn. by rewrite IH.
Qed.

Lemma snapshot_instances T k st :
  Forall (λ p, effects st !! p.1 = Some p.2) (snapshot T k st).
Proof.
  unfold snapshot. induction (subscribers T k st) as [|e l IH]; [done|].
  cbn [omap list_omap]. destruct (effects st !! e) as [eff|] eqn:He; [|done].
  cbn. by constructor.
Qed.

Lemma snapshot_carries T k st st' :
  effects st' = effects st → Forall (carries st') (snapshot T k st).
Proof.
  intros Heq. eapply Forall_impl; [apply snapshot_instances|].
  intros [e eff] He. exists eff. by rewrite Heq.
Qed.

Lemma trigger_call_in_order d T k st :
  wf st → trigger (eval d) T k st = call_in_order d (snapshot T k st) st.
Proof.
  intros Hwf. rewrite trigger_forEach, <- (snapshot_members T k st Hwf).
  apply forEach_call_in_order. by apply snapshot_carries.
Qed.

(** The [set] handler, for an assignment made by client code. *)
Lemma put_call_in_order d p T k v st :
  wf st → proxies st !! p = Some T →
  eval (S d) (Put (Lit (VProxy p)) k (Lit v)) st
  = if strict_eq (Reflect_get T k st) v
    then Some (Ret v, Reflect_set T k v st)
    else and_then (call_in_order d (snapshot T k st) (Reflect_set T k v st))
                  (λ _ st', Some (Ret v, st')).
Proof.
  intros Hwf Hp. change (eval (S d)) with (ev (eval d)).
  cbn [ev and_then]. rewrite Hp. unfold proxy_set.
  destruct (strict_eq (Reflect_get T k st) v); cbn [negb and_then]; [done|].
  rewrite trigger_forEach.
  rewrite (subscribers_same st (Reflect_set T k v st)) by done.
  rewrite <- (snapshot_members T k st Hwf).
  rewrite (forEach_call_in_order d (snapshot T k st) (Reflect_set T k v st))
    by by apply snapshot_carries.
  by destruct (call_in_order d _ _) as [[[r|x] st1]|].
Qed.

(** C7: [trigger] walks a copy of the subscriber set taken before the
    first call.  In every consistent state and whatever the user functions
    do (they may stop effects and register new ones, and so take members
    out of the live set and add members to it, write properties and call
    runners), the result of [trigger] is that of calling the members the
    set has at entry, all of them, in their order, each with the instance
    it has at entry: the scheduler is evaluated for a member that has one,
    and its function is not; for the others the function is evaluated.
    When the user functions assign no property and call no runner,
    [trigger] completes. *)
Theorem trigger_calls_snapshot (d : nat) (T : nat) (k : string) (st : state) :
  wf st →
  (snapshot T k st).*1 = subscribers T k st
  ∧ Forall (λ p, effects st !! p.1 = Some p.2) (snapshot T k st)
  ∧ trigger (eval d) T k st = call_in_order d (snapshot T k st) st
  ∧ ∀ n, Forall (calm_subscriber n st) (subscribers T k st) →
      ∃ o st', trigger (eval (S n)) T k st = Some (o, st').
Proof.
  intros Hwf. split_and!.
  - by apply snapshot_members.
  - apply snapshot_instances.
  - by apply trigger_call_in_order.
  - intros n Hall. rewrite trigger_forEach.
    destruct (forEach_calm n _ st Hall) as (o & st' & m & Hr & _). by eauto.
Qed.

(** C4: an assignment [proxy.k = v] through the proxy of [T] writes [v]
    to [T] in every case.  When [v] is strictly equal to the value stored
    before, nothing else happens: no subscriber is called.  When it is
    not, the assignment goes on, from the state with [v] written, with the
    calls of the subscribers that [(T, k)] has at the time of the write,
    all of them and no other effect, in their order, each run or handed
    to its scheduler; what the assignment leaves is what these calls
    leave, and it returns [v] when they return and throws what one of them
    throws.  When the user functions of the subscribers assign no property
    and call no runner, the assignment completes. *)
Theorem write_triggers_subscribers (d p T : nat) (k : string) (v : value)
    (st : state) :
  wf st → proxies st !! p = Some T →
  eval (S d) (Put (Lit (VProxy p)) k (Lit v)) st
  = (if strict_eq (Reflect_get T k st) v
     then Some (Ret v, Reflect_set T k v st)
     else and_then (call_in_order d (snapshot T k st) (Reflect_set T k v st))
                   (λ _ st', Some (Ret v, st')))
  ∧ (snapshot T k st).*1 = subscribers T k st
  ∧ (∀ props, heap st !! T = Some props →
       heap (Reflect_set T k v st) !! T = Some (<[k := v]> props))
  ∧ ∀ n, Forall (calm_subscriber n st) (subscribers T k st) →
      ∃ o st', eval (S (S n)) (Put (Lit (VProxy p)) k (Lit v)) st = Some (o, st')
        ∧ ∀ r, o = Ret r → r = v.
Proof.
  intros Hwf Hp. split_and!.
  - by apply put_call_in_order.
  - by apply snapshot_members.
  - intros props Hprops. simpl. by rewrite list_lookup_alter_eq, Hprops.
  - intros n Hall. change (eval (S (S n))) with (ev (eval (S n))).
    cbn [ev and_then]. rewrite Hp. unfold proxy_set.
    destruct (strict_eq (Reflect_get T k st) v); cbn [negb and_then].
    + eexists _, _. split; [done|]. by intros r [= <-].
    + rewrite trigger_forEach.
      rewrite (subscribers_same st (Reflect_set T k v st)) by done.
      destruct (forEach_calm n (subscribers T k st) (Reflect_set T k v st) Hall)
        as (o & st' & m & -> & _).
      destruct o as [r|x]; cbn [and_then]; eexists _, _; (split; [done|]).
      * by intros r' [= <-].
      * done.
Qed.

Lemma calm_subscriber_intro d st e eff :
  effects st !! e = Some eff →
  match scheduler eff with
  | Some sched => calm sched = true ∧ frames sched ≤ d
  | None => calm (fn eff) = true ∧ frames (fn eff) ≤ d
  end →
  calm_subscriber d st e.
Proof. intros He Hm. by exists eff. Qed.

(** The user functions of the three subscribers of the demonstration
    assign no property and call no runner. *)
Lemma live_set_demo_calm :
  Forall (calm_subscriber 1 live_set_demo) (subscribers 0 "count" live_set_demo).
Proof.
  change (subscribers 0 "count" live_set_demo) with [0; 1; 2].
  repeat constructor.
  - eapply calm_subscriber_intro; [reflexivity|]. simpl. split; [reflexivity|lia].
  - eapply calm_subscriber_intro; [reflexivity|]. simpl. split; [reflexivity|lia].
  - eapply calm_subscriber_intro; [reflexivity|]. simpl. split; [reflexivity|lia].
Qed.

(** The three subscribers of the demonstration, the first of which
    changes the live set. *)
Lemma trigger_calls_snapshot_witness :
  (snapshot 0 "count" live_set_demo).*1 = subscribers 0 "count" live_set_demo
  ∧ Forall (λ p, effects live_set_demo !! p.1 = Some p.2)
           (snapshot 0 "count" live_set_demo)
  ∧ trigger (eval 2) 0 "count" live_set_demo
    = call_in_order 2 (snapshot 0 "count" live_set_demo) live_set_demo
  ∧ ∀ n, Forall (calm_subscriber n live_set_demo)
                (subscribers 0 "count" live_set_demo) →
      ∃ o st', trigger (eval (S n)) 0 "count" live_set_demo = Some (o, st').
Proof.
  apply (trigger_calls_snapshot 2 0 "count" live_set_demo).
  unfold live_set_demo. apply state_after_wf, wf_observed_count.
Defined.

(** The live set changes under the iteration and the iteration does not
    see it: the second subscriber, stopped and removed by the first, is
    still run; the effect registered and added meanwhile is not called;
    the third subscriber is handed to its scheduler and its function is
    not run. *)
Lemma live_set_demo_trigger :
  subscribers 0 "count" live_set_demo = [0; 1; 2]
  ∧ fired live_set_demo = []
  ∧ ∃ st', trigger (eval 2) 0 "count" live_set_demo = Some (Ret VUndefined, st')
      ∧ fired st' = [Ran 0; Ran 1; Scheduled 2]
      ∧ subscribers 0 "count" st' = [0; 2; 3]
      ∧ vars st' !! "scheduled" = Some (VBool true)
      ∧ collected_since live_set_demo st' = [(0, "count", 3)].
Proof.
  split_and!; [vm_compute; reflexivity..|].
  eexists. split_and!; vm_compute; reflexivity.
Qed.

(** The write [s.ok = false] after the registration of the branching
    effect. *)
Lemma write_triggers_subscribers_witness :
  eval 2 (Put (Lit (VProxy 0)) "ok" (Lit (VBool false))) after_first_run
  = (if strict_eq (Reflect_get 0 "ok" after_first_run) (VBool false)
     then Some (Ret (VBool false),
                Reflect_set 0 "ok" (VBool false) after_first_run)
     else and_then (call_in_order 1 (snapshot 0 "ok" after_first_run)
                      (Reflect_set 0 "ok" (VBool false) after_first_run))
                   (λ _ st', Some (Ret (VBool false), st')))
  ∧ (snapshot 0 "ok" after_first_run).*1 = subscribers 0 "ok" after_first_run
  ∧ (∀ props, heap after_first_run !! 0 = Some props →
       heap (Reflect_set 0 "ok" (VBool false) after_first_run) !! 0
       = Some (<["ok" := VBool false]> props))
  ∧ ∀ n, Forall (calm_subscriber n after_first_run)
                (subscribers 0 "ok" after_first_run) →
      ∃ o st', eval (S (S n)) (Put (Lit (VProxy 0)) "ok" (Lit (VBool false)))
                    after_first_run = Some (o, st')
        ∧ ∀ r, o = Ret r → r = VBool false.
Proof.
  apply (write_triggers_subscribers 1 0 0 "ok" (VBool false) after_first_run).
  - apply wf_after_first_run.
  - reflexivity.
Defined.

(** ** Stopping an effect *)

(** [stop] on a running effect takes it out of every dependency set. *)
Lemma stop_unsubscribes e eff st :
  wf st → effects st !! e = Some eff → active eff = true →
  (∀ dep s, sets (stop e st) !! dep = Some s → e ∉ s)
  ∧ ∀ T k, e ∉ subscribers T k (stop e st).
Proof.
  intros Hwf He Ha.
  assert (Hall : ∀ dep s, sets (stop e st) !! dep = Some s → e ∉ s).
  { intros dep s Hs Hin.
    destruct (wf_member _ (wf_stop e st Hwf) _ _ _ Hs Hin) as (eff' & He' & Hd).
    rewrite (stop_effect _ _ _ He Ha) in He'.
    rewrite list_lookup_insert_eq in He' by by eapply lookup_lt_Some.
    injection He' as <-. by apply elem_of_nil in Hd. }
  split; [done|]. intros T k. unfold subscribers.
  destruct (dep_of T k (stop e st)) as [dep|]; [|apply not_elem_of_nil].
  destruct (sets (stop e st) !! dep) as [s|] eqn:Hs; [by eapply Hall|].
  apply not_elem_of_nil.
Qed.

(** X7: a second [stop] does nothing: on every state and for every
    effect, existing or not, running or stopped, stopping twice leaves
    what stopping once leaves. *)
Lemma stop_again e st : stop e (stop e st) = stop e st.
Proof.
  destruct (effects st !! e) as [eff|] eqn:He.
  - destruct (active eff) eqn:Ha.
    + pose proof (stop_effect _ _ _ He Ha) as Hs.
      unfold stop at 1. rewrite Hs.
      by rewrite list_lookup_insert_eq by by eapply lookup_lt_Some.
    + assert (stop e st = st) as -> by (unfold stop; by rewrite He, Ha).
      unfold stop. by rewrite He, Ha.
  - assert (stop e st = st) as -> by (unfold stop; by rewrite He).
    unfold stop. by rewrite He.
Qed.

(** [run] on a stopped effect is a plain call of its function. *)
Lemma run_stopped call e eff st :
  effects st !! e = Some eff → active eff = false →
  run call e st = call (fn eff) st.
Proof. intros He Ha. unfold run. by rewrite He, Ha. Qed.

(** The members of a dependency set after [track] are those it had and
    the active effect. *)
Lemma track_sets_members T k st dep s x :
  sets (track T k st) !! dep = Some s → x ∈ s →
  activeEffect st = Some x ∨ ∃ s0, sets st !! dep = Some s0 ∧ x ∈ s0.
Proof.
  destruct (activeEffect st) as [e|] eqn:Ha; [|unfold track; rewrite Ha; by eauto].
  rewrite (track_eq _ _ _ _ Ha).
  assert (Hsub : ∀ d0 s1 st1,
            sets (subscribe d0 e st1) !! dep = Some s1 → x ∈ s1 →
            x = e ∨ ∃ s0, sets st1 !! dep = Some s0 ∧ x ∈ s0).
  { intros d0 s1 st1. unfold subscribe.
    destruct (dep_has d0 e st1); [by eauto|]. simpl.
    rewrite list_lookup_alter. destruct (decide (d0 = dep)) as [->|]; [|by eauto].
    destruct (sets st1 !! dep) as [s0|]; [simpl|done].
    intros [= <-] [Hin | ->%list_elem_of_singleton]%elem_of_app; by eauto. }
  destruct (dep_of T k st) as [d0|]; intros Hs Hx.
  - destruct (Hsub _ _ _ Hs Hx) as [->|?]; by eauto.
  - destruct (Hsub _ _ _ Hs Hx) as [->|(s0 & Hs0 & Hin)]; [by eauto|].
    simpl in Hs0. apply lookup_app_Some in Hs0 as [Hs0|[_ Hs0]]; [by eauto|].
    apply list_lookup_singleton_Some in Hs0 as [_ <-]. by apply elem_of_nil in Hin.
Qed.

Lemma cleanupEffect_sets_members e st dep s x :
  sets (cleanupEffect e st) !! dep = Some s → x ∈ s →
  ∃ s0, sets st !! dep = Some s0 ∧ x ∈ s0.
Proof.
  destruct (effects st !! e) as [eff|] eqn:He;
    [|unfold cleanupEffect; rewrite He; by eauto].
  rewrite (cleanupEffect_eq _ _ _ He).
  destruct (deps eff) as [|d0 ds] eqn:Hd; [by eauto|]. rewrite <- Hd. simpl.
  rewrite cleanup_sets_lookup. destruct (sets st !! dep) as [s0|]; [simpl|done].
  intros [= <-] Hin. exists s0. split; [done|].
  case_decide; [|done]. by apply list_elem_of_filter in Hin as [_ ?].
Qed.

(** [stop] only takes members out of the dependency sets. *)
Lemma stop_sets_members e st dep s x :
  sets (stop e st) !! dep = Some s → x ∈ s →
  ∃ s0, sets st !! dep = Some s0 ∧ x ∈ s0.
Proof.
  unfold stop. destruct (effects st !! e) as [eff|] eqn:He; [|by eauto].
  destruct (active eff); [|by eauto].
  intros Hs Hin. by apply (cleanupEffect_sets_members _ _ _ _ _ Hs Hin).
Qed.

(** Once an effect is stopped while it is not the active one, nothing
    that runs later brings it back: it stays out of every dependency set
    and [trigger] never calls it. *)
Lemma eval_retired e n d t st o st' :
  retired e n st → eval d t st = Some (o, st') → retired e n st'.
Proof.
  apply (eval_invariant (retired e n) (λ e', e' ≠ e)).
  - by intros vs s H.
  - by intros h s H.
  - intros v s H. unfold reactive.
    destruct (negb (truthy v) || negb (typeof_object v)); [done|].
    destruct (truthy (read_marker v s)); [done|].
    destruct v; try done. by destruct (reactiveMap s !! o0).
  - intros T k s ((eff & He & Ha) & Hact & Hsets & Hf).
    destruct (track_frame T k s) as (_ & _ & _ & Hact' & _ & Hf').
    split_and!.
    + destruct (track_effects T k s) as [-> | (e0 & dep & ->)]; [by eauto|].
      rewrite list_lookup_alter. destruct (decide (e0 = e)) as [->|]; [|by eauto].
      rewrite He. simpl. by eauto.
    + by rewrite Hact'.
    + intros dep s' Hs' Hin.
      destruct (track_sets_members _ _ _ _ _ _ Hs' Hin) as [?|(s0 & Hs0 & Hin0)];
        [done|]. by eapply Hsets.
    + by rewrite Hf'.
  - intros e0 s ((eff & He & Ha) & Hact & Hsets & Hf).
    destruct (stop_frame e0 s) as (_ & _ & _ & _ & Hact' & _ & _ & Hf').
    split_and!.
    + destruct (effects s !! e0) as [eff0|] eqn:He0;
        [|unfold stop; rewrite He0; by eauto].
      destruct (active eff0) eqn:Ha0;
        [|unfold stop; rewrite He0, Ha0; by eauto].
      rewrite (stop_effect _ _ _ He0 Ha0).
      destruct (decide (e0 = e)) as [->|]; [congruence|].
      rewrite list_lookup_insert_ne by done. by eauto.
    + by rewrite Hact'.
    + intros dep s' Hs' Hin.
      destruct (stop_sets_members _ _ _ _ _ Hs' Hin) as (s0 & Hs0 & Hin0).
      by eapply Hsets.
    + by rewrite Hf'.
  - intros body sched s ((eff & He & Ha) & Hact & Hsets & Hf).
    split_and!; [|done..]. exists eff. split; [|done]. by apply lookup_app_l_Some.
  - intros e0 eff0 s He0 Ha0 ((eff & He & Ha) & Hact & Hsets & Hf).
    split_and!; [by eauto| |done..]. simpl. intros [= ->]. congruence.
  - intros s ((eff & He & Ha) & Hact & Hsets & Hf). by split_and!; [eauto|..].
  - intros s dep s' e0 (_ & _ & Hsets & _) Hs' Hin ->. by eapply Hsets.
  - intros e0 s Hne ((eff & He & Ha) & Hact & Hsets & Hf).
    split; (split_and!; [by eauto|done..|]); simpl;
      rewrite drop_app; apply Forall_app; (split; [done|]);
      apply Forall_drop, Forall_singleton; split; congruence.
Qed.

Lemma retired_detached e n st : retired e n st → detached e st.
Proof. intros (? & ? & ? & _). by split_and!. Qed.

Lemma detached_retired e st : detached e st → retired e (length (fired st)) st.
Proof. intros (? & ? & ?). split_and!; [done..|]. by rewrite drop_all. Qed.

Lemma eval_detached e d t st o st' :
  detached e st → eval d t st = Some (o, st') → detached e st'.
Proof.
  intros H Hev. apply detached_retired in H.
  by apply (retired_detached e (length (fired st))),
           (eval_retired _ _ _ _ _ _ _ H Hev).
Qed.

(** The rest of a [forEach] in progress may hold the stopped effect and
    then calls it; its function is run as that of a stopped effect, and
    the effect stays out of every dependency set. *)
Lemma forEach_detached e d l st o st' :
  detached e st → forEach (eval d) l st = Some (o, st') → detached e st'.
Proof.
  apply (forEach_invariant (detached e) (λ _, True)).
  - intros e0 eff0 s He0 Ha0 ((eff & He & Ha) & Hact & Hsets).
    split_and!; [by eauto| |done]. simpl. intros [= ->]. congruence.
  - intros s ((eff & He & Ha) & Hact & Hsets). by split_and!; [eauto|..].
  - intros e0 s _ H. by split.
  - intros t s o1 s1. apply eval_detached.
  - by apply Forall_true.
Qed.

Lemma later_detached e st st' : later st st' → detached e st → detached e st'.
Proof.
  induction 1 as [st|d t st o st1 st' Hev _ IH|d l st o st1 st' Hf _ IH|st st' _ IH];
    intros Hd.
  - done.
  - by eapply IH, eval_detached.
  - by eapply IH, forEach_detached.
  - apply IH. destruct Hd as (? & ? & ?). by split_and!.
Qed.

(** X9: after [stop] on a running effect that is not the active one (a
    stop from outside its run), the effect is never a subscriber of any
    key again, whatever runs later: client code, the rest of a [trigger]
    that is in progress when the stop is made, the exit of a [run] in
    progress.  Moreover no [trigger] started by client code that is
    evaluated from the stop on calls it.  (A [trigger] in progress that
    copied the set before the stop does call it once more:
    [live_set_demo_trigger].) *)
Lemma stop_is_final e eff st :
  wf st → effects st !! e = Some eff → active eff = true →
  activeEffect st ≠ Some e →
  (∀ st', later (stop e st) st' → ∀ T k, e ∉ subscribers T k st')
  ∧ (∀ d t o st', eval d t (stop e st) = Some (o, st') →
       Forall (λ ev, ev ≠ Ran e ∧ ev ≠ Scheduled e)
              (drop (length (fired st)) (fired st'))).
Proof.
  intros Hwf He Ha Hact.
  assert (Hret : retired e (length (fired st)) (stop e st)).
  { destruct (stop_frame e st) as (_ & _ & _ & _ & Hact' & _ & _ & Hf').
    split_and!.
    - rewrite (stop_effect _ _ _ He Ha).
      rewrite list_lookup_insert_eq by by eapply lookup_lt_Some. by eauto.
    - by rewrite Hact'.
    - by apply (stop_unsubscribes e eff st).
    - rewrite Hf', drop_all. done. }
  split.
  - intros st' Hl T k.
    destruct (later_detached e _ _ Hl (retired_detached _ _ _ Hret))
      as (_ & _ & Hsets).
    unfold subscribers.
    destruct (dep_of T k st') as [dep|]; [|apply not_elem_of_nil].
    destruct (sets st' !! dep) as [s0|] eqn:Hs; [by eapply Hsets|].
    apply not_elem_of_nil.
  - intros d t o st' Hev.
    by destruct (eval_retired _ _ _ _ _ _ _ Hret Hev) as (_ & _ & _ & Hf).
Qed.

(** C5, at the failing input: an effect that calls [stop] on itself
    during its own run and then reads [observed.count] is stopped
    ([active] is false) and yet again a member of the dependency set of
    that key, listed in its [deps]; the next write to the key runs it
    again. *)
Theorem stopped_effect_is_triggered_again :
  effects after_self_stop !! 0 = Some (mkEffect false [0] self_stopping_body None)
  ∧ subscribers 0 "count" after_self_stop = [0]
  ∧ fired after_self_stop = [Ran 0]
  ∧ fired (state_after 2 (Put (Var "observed") "count" (Lit (VNum 2))) after_self_stop)
    = [Ran 0; Ran 0].
Proof. split_and!; vm_compute; reflexivity. Qed.

(** * Further properties of the code *)

(** ** A relation kept by every step *)

Section Relation.
(** A relation [R] between the state before and the state after, kept by
    every step the library makes.  A run of an active effect only needs
    [R] to hold from entry to exit, not in between; [track] is only ever
    called for a key other than the marker. *)
Variable R : state → state → Prop.
Hypothesis R_refl : ∀ st, R st st.
Hypothesis R_trans : ∀ st1 st2 st3, R st1 st2 → R st2 st3 → R st1 st3.
Hypothesis R_vars : ∀ vs st, R st (set_vars vs st).
Hypothesis R_heap : ∀ h st, R st (set_heap h st).
Hypothesis R_reactive : ∀ v st, R st (reactive v st).2.
Hypothesis R_track : ∀ T k st,
  String.eqb k IS_REACTIVE = false → R st (track T k st).
Hypothesis R_stop : ∀ e st, R st (stop e st).
Hypothesis R_new : ∀ body sched st,
  R st (set_effects (effects st ++ [mkEffect true [] body sched]) st).
Hypothesis R_log : ∀ ev st, R st (log_event ev st).
Hypothesis R_run : ∀ e eff st st1,
  effects st !! e = Some eff → active eff = true →
  R (set_activeEffect (Some e) st) st1 → R st (set_activeEffect None st1).

Section Frame.
Variable call : term → state → result.
Hypothesis R_call : ∀ t st o st', call t st = Some (o, st') → R st st'.

Lemma run_relation e st o st' :
  run call e st = Some (o, st') → R st st'.
Proof.
  unfold run. destruct (effects st !! e) as [eff|] eqn:He.
  - destruct (active eff) eqn:Ha; simpl.
    + destruct (call (fn eff) _) as [[o1 st1]|] eqn:Hc; [|done].
      intros [= <- <-]. eapply R_run; [done..|]. by eapply R_call.
    + by apply R_call.
  - intros [= <- <-]. apply R_refl.
Qed.

Lemma invoke_relation e st o st' :
  invoke call e st = Some (o, st') → R st st'.
Proof.
  unfold invoke. destruct (effects st !! e) as [eff|].
  - destruct (scheduler eff).
    + intros Hc. eapply R_trans; [apply R_log|]. by eapply R_call.
    + intros Hc. eapply R_trans; [apply R_log|]. by eapply run_relation.
  - intros [= <- <-]. apply R_refl.
Qed.

Lemma forEach_relation snapshot st o st' :
  forEach call snapshot st = Some (o, st') → R st st'.
Proof.
  revert st. induction snapshot as [|e rest IH]; intros st; simpl.
  - intros [= <- <-]. apply R_refl.
  - intros [(v & st1 & Hi & Hk) | (x & Hi & ->)]%and_then_Some.
    + eapply R_trans; [by eapply invoke_relation|by apply IH].
    + by eapply invoke_relation.
Qed.

Lemma proxy_set_relation T k v st o st' :
  proxy_set call T k v st = Some (o, st') → R st st'.
Proof.
  unfold proxy_set. destruct (negb _).
  - rewrite trigger_forEach.
    intros [(v1 & st1 & Hi & Hk) | (x & Hi & ->)]%and_then_Some.
    + injection Hk as <- <-. eapply R_trans; [apply R_heap|].
      by eapply forEach_relation.
    + eapply R_trans; [apply R_heap|]. by eapply forEach_relation.
  - intros [= <- <-]. apply R_heap.
Qed.

Lemma ev_relation t st o st' :
  ev call t st = Some (o, st') → R st st'.
Proof.
  revert st o st'.
  induction t as [v|x|x t IH|f t IH|f t1 IH1 t2 IH2|t1 IH1 t2 IH2
                  |c IHc t1 IH1 t2 IH2|t IH|props|t IH k|t1 IH1 k t2 IH2
                  |t IH|body _|body _|body _ sched _|e|e];
    intros st o st'; simpl.
  - intros [= <- <-]. apply R_refl.
  - intros [= <- <-]. apply R_refl.
  - intros [(v & st1 & Hi & Hk) | (x' & Hi & ->)]%and_then_Some; [|by eauto].
    injection Hk as <- <-. eapply R_trans; [by eapply IH|]. apply R_vars.
  - intros [(v & st1 & Hi & Hk) | (x' & Hi & ->)]%and_then_Some; [|by eauto].
    injection Hk as <- <-. by eauto.
  - intros [(v1 & st1 & Hi & Hk) | (x' & Hi & ->)]%and_then_Some; [|by eauto].
    apply IH1 in Hi.
    apply and_then_Some in Hk as [(v2 & st2 & Hi2 & Hk) | (x' & Hi2 & ->)].
    + injection Hk as <- <-. eapply R_trans; [done|]. by eapply IH2.
    + eapply R_trans; [done|]. by eapply IH2.
  - intros [(v & st1 & Hi & Hk) | (x' & Hi & ->)]%and_then_Some; [|by eauto].
    eapply R_trans; [by eapply IH1|by eapply IH2].
  - intros [(v & st1 & Hi & Hk) | (x' & Hi & ->)]%and_then_Some; [|by eauto].
    apply IHc in Hi. eapply R_trans; [done|].
    destruct (truthy v); [by eapply IH1|by eapply IH2].
  - intros [(v & st1 & Hi & Hk) | (x' & Hi & ->)]%and_then_Some; [|by eauto].
    injection Hk as <- <-. by eauto.
  - intros [= <- <-]. apply R_heap.
  - intros [(vo & st1 & Hi & Hk) | (x' & Hi & ->)]%and_then_Some; [|by eauto].
    apply IH in Hi.
    destruct vo; try (injection Hk as <- <-; done).
    destruct (proxies st1 !! p) as [T|]; [|injection Hk as <- <-; done].
    unfold proxy_get in Hk. destruct (String.eqb k IS_REACTIVE) eqn:Hkey.
    + by injection Hk as <- <-.
    + injection Hk as <- <-. eapply R_trans; [done|]. by apply R_track.
  - intros [(vo & st1 & Hi & Hk) | (x' & Hi & ->)]%and_then_Some; [|by eauto].
    apply IH1 in Hi.
    apply and_then_Some in Hk as [(v & st2 & Hi2 & Hk) | (x' & Hi2 & ->)];
      [|by eauto].
    apply IH2 in Hi2. assert (H12 : R st st2) by by eapply R_trans.
    destruct vo; try (injection Hk as <- <-; done).
    + injection Hk as <- <-. eapply R_trans; [done|]. apply R_heap.
    + destruct (proxies st2 !! p) as [T|]; [|injection Hk as <- <-; done].
      apply and_then_Some in Hk as [(v3 & st3 & Hi3 & Hk) | (x' & Hi3 & ->)].
      * injection Hk as <- <-. eapply R_trans; [done|].
        by eapply proxy_set_relation.
      * eapply R_trans; [done|]. by eapply proxy_set_relation.
  - intros [(v & st1 & Hi & Hk) | (x' & Hi & ->)]%and_then_Some; [|by eauto].
    apply IH in Hi. pose proof (R_reactive v st1) as HR.
    destruct (reactive v st1) as [r st2]. injection Hk as <- <-.
    by eapply R_trans.
  - unfold effect.
    intros [(v & st1 & Hi & Hk) | (x' & Hi & ->)]%and_then_Some.
    + injection Hk as <- <-. eapply R_trans; [apply R_new|].
      by eapply run_relation.
    + eapply R_trans; [apply R_new|]. by eapply run_relation.
  - intros [= <- <-]. apply R_new.
  - intros [= <- <-]. apply R_new.
  - apply run_relation.
  - destruct (effects st !! e); intros [= <- <-]; [apply R_stop|apply R_refl].
Qed.
End Frame.

Lemma eval_relation d t st o st' :
  eval d t st = Some (o, st') → R st st'.
Proof.
  revert t st o st'. induction d as [|d IH]; intros t st o st'; [done|].
  simpl. by apply ev_relation.
Qed.
End Relation.

(** ** What the steps leave alone *)

Lemma reactive_frame v st :
  heap (reactive v st).2 = heap st
  ∧ targetMap (reactive v st).2 = targetMap st
  ∧ sets (reactive v st).2 = sets st
  ∧ effects (reactive v st).2 = effects st
  ∧ activeEffect (reactive v st).2 = activeEffect st
  ∧ vars (reactive v st).2 = vars st
  ∧ collected (reactive v st).2 = collected st
  ∧ fired (reactive v st).2 = fired st.
Proof.
  unfold reactive. destruct (negb (truthy v) || negb (typeof_object v)); [done|].
  destruct (truthy (read_marker v st)); [done|].
  destruct v; try done. by destruct (reactiveMap st !! o).
Qed.

Lemma track_targetMap_other T k st T' k' :
  ¬ (T' = T ∧ k' = k) → dep_of T' k' (track T k st) = dep_of T' k' st.
Proof.
  intros Hne. destruct (activeEffect st) as [e|] eqn:Ha;
    [|unfold track; by rewrite Ha].
  rewrite (track_eq _ _ _ _ Ha).
  destruct (dep_of T k st) as [dep|];
    match goal with
    | |- context [subscribe ?d ?e ?s] =>
        destruct (subscribe_frame d e s) as (_ & _ & _ & Ht & _);
        unfold dep_of at 1; rewrite Ht; fold (dep_of T' k' s)
    end; [done|].
  erewrite dep_of_alloc by reflexivity. by rewrite decide_False.
Qed.

(** ** The active-effect slot over whole programs *)

(** X1: whatever client code does (reads, writes, registrations, nested
    and re-entrant runs, stops, throws), when it completes the
    active-effect slot either holds what it held before or is empty: no
    run leaves its own effect behind in the slot.  In particular code
    started outside any effect ends outside any effect. *)
Theorem slot_unchanged_or_empty (d : nat) (t : term) (st st' : state)
    (o : outcome) :
  eval d t st = Some (o, st') →
  (activeEffect st' = activeEffect st ∨ activeEffect st' = None)
  ∧ (activeEffect st = None → activeEffect st' = None).
Proof.
  intros He.
  assert (H : activeEffect st' = activeEffect st ∨ activeEffect st' = None).
  { revert He.
    apply (eval_relation
             (λ s s', activeEffect s' = activeEffect s ∨ activeEffect s' = None)).
    - by left.
    - intros s1 s2 s3 [H1|H1] [H2|H2]; rewrite ?H2, ?H1; by eauto.
    - by left.
    - by left.
    - intros v s. left. by destruct (reactive_frame v s) as (_ & _ & _ & _ & -> & _).
    - intros T k s _. left. by destruct (track_frame T k s) as (_ & _ & _ & -> & _).
    - intros e s. left. by destruct (stop_frame e s) as (_ & _ & _ & _ & -> & _).
    - by left.
    - by left.
    - by right. }
  split; [done|]. intros Hn. destruct H as [H|H]; congruence.
Qed.

(** The test program of the package, run from the start. *)
Lemma slot_unchanged_or_empty_witness :
  (activeEffect (state_after 3 should_be_reactive_program empty_state)
   = activeEffect empty_state
   ∨ activeEffect (state_after 3 should_be_reactive_program empty_state) = None)
  ∧ (activeEffect empty_state = None →
     activeEffect (state_after 3 should_be_reactive_program empty_state) = None).
Proof.
  apply (slot_unchanged_or_empty 3 should_be_reactive_program empty_state
           (state_after 3 should_be_reactive_program empty_state) (Ret (VNum 1))).
  vm_compute. reflexivity.
Defined.

(** ** The shape of the dependency graph over whole programs *)

(** X2: from the first call on, whatever client code does and whether it
    returns or throws, the two directions of the link between dependency
    sets and effects agree: every subscriber of a [(target, key)] is an
    existing effect instance whose [deps] lists that very set (so that
    [cleanupEffect] finds it), and every set listed in an effect's [deps]
    has the effect as a member. *)
Theorem graph_consistent_after_program (d : nat) (t : term) (st : state)
    (o : outcome) :
  eval d t empty_state = Some (o, st) →
  wf st
  ∧ (∀ e T k, e ∈ subscribers T k st →
       ∃ eff dep, effects st !! e = Some eff ∧ dep_of T k st = Some dep
                  ∧ dep ∈ deps eff)
  ∧ (∀ e eff dep, effects st !! e = Some eff → dep ∈ deps eff →
       ∃ s, sets st !! dep = Some s ∧ e ∈ s).
Proof.
  intros He. assert (Hwf : wf st) by (eapply eval_wf; [apply wf_empty|done]).
  split_and!; [done| |by apply wf_deps].
  intros e T k. unfold subscribers.
  destruct (dep_of T k st) as [dep|] eqn:Hd; [|by intros ?%elem_of_nil].
  destruct (sets st !! dep) as [s|] eqn:Hs; [simpl|by intros ?%elem_of_nil].
  intros Hin. destruct (wf_member _ Hwf _ _ _ Hs Hin) as (eff & Heff & Hdin).
  by exists eff, dep.
Qed.

Lemma graph_consistent_after_program_witness :
  let st := state_after 3 should_be_reactive_program empty_state in
  wf st
  ∧ (∀ e T k, e ∈ subscribers T k st →
       ∃ eff dep, effects st !! e = Some eff ∧ dep_of T k st = Some dep
                  ∧ dep ∈ deps eff)
  ∧ (∀ e eff dep, effects st !! e = Some eff → dep ∈ deps eff →
       ∃ s, sets st !! dep = Some s ∧ e ∈ s).
Proof.
  apply (graph_consistent_after_program 3 should_be_reactive_program
           (state_after 3 should_be_reactive_program empty_state) (Ret (VNum 1))).
  vm_compute. reflexivity.
Defined.

Lemma subscribe_deps_distinct dep e st :
  wf st → deps_distinct st → deps_distinct (subscribe dep e st).
Proof.
  intros Hwf Hdd. unfold subscribe. destruct (dep_has dep e st) eqn:Hhas; [done|].
  intros e' eff'. simpl. rewrite list_lookup_alter.
  destruct (decide (e = e')) as [<-|]; [|apply Hdd].
  destruct (effects st !! e) as [eff|] eqn:He; [simpl|done].
  intros [= <-]. simpl. apply NoDup_app. split_and!.
  - by eapply Hdd.
  - intros x Hx ->%list_elem_of_singleton.
    destruct (wf_deps _ Hwf _ _ _ He Hx) as (s & Hs & Hin).
    unfold dep_has in Hhas. rewrite Hs in Hhas. by case_bool_decide.
  - apply NoDup_singleton.
Qed.

Lemma track_deps_distinct T k st :
  wf st → deps_distinct st → deps_distinct (track T k st).
Proof.
  intros Hwf Hdd. destruct (activeEffect st) as [e|] eqn:Ha;
    [|unfold track; by rewrite Ha].
  rewrite (track_eq _ _ _ _ Ha).
  assert (Hlog : wf (log_collected T k e st)) by by apply (wf_same st).
  destruct (dep_of T k st) as [dep|] eqn:Hd.
  - by apply subscribe_deps_distinct.
  - apply subscribe_deps_distinct; [by apply (wf_alloc T k _ Hlog)|done].
Qed.

Lemma stop_deps_distinct e st : deps_distinct st → deps_distinct (stop e st).
Proof.
  intros Hdd. destruct (effects st !! e) as [eff|] eqn:He;
    [|unfold stop; by rewrite He].
  destruct (active eff) eqn:Ha; [|unfold stop; by rewrite He, Ha].
  intros e' eff'. rewrite (stop_effect _ _ _ He Ha).
  destruct (decide (e = e')) as [<-|].
  - rewrite list_lookup_insert_eq by by eapply lookup_lt_Some.
    intros [= <-]. apply NoDup_nil_2.
  - rewrite list_lookup_insert_ne by done. apply Hdd.
Qed.

(** X3: the [has] check of [track] keeps both sides free of duplicates
    over whole programs: no dependency set holds an effect twice (so a
    write calls each subscriber once) and no effect lists a set twice in
    its [deps]. *)
Theorem no_duplicate_subscriptions (d : nat) (t : term) (st : state)
    (o : outcome) :
  eval d t empty_state = Some (o, st) →
  (∀ T k, NoDup (subscribers T k st)) ∧ deps_distinct st.
Proof.
  intros He.
  assert (H : wf st ∧ deps_distinct st).
  { revert He. apply (eval_invariant (λ s, wf s ∧ deps_distinct s) (λ _, True)).
    - intros vs s [Hw Hd]. split; [by apply (wf_same s)|done].
    - intros h s [Hw Hd]. split; [by apply (wf_same s)|done].
    - intros v s [Hw Hd]. split; [by apply wf_reactive|].
      destruct (reactive_frame v s) as (_ & _ & _ & Hes & _).
      intros e eff. rewrite Hes. apply Hd.
    - intros T k s [Hw Hd]. split; [by apply wf_track|by apply track_deps_distinct].
    - intros e s [Hw Hd]. split; [by apply wf_stop|by apply stop_deps_distinct].
    - intros body sched s [Hw Hd]. split; [by apply wf_new_effect|].
      intros e eff [He|[_ He]]%lookup_app_Some; [by eapply Hd|].
      apply list_lookup_singleton_Some in He as [_ <-]. apply NoDup_nil_2.
    - intros e eff s He' _ [Hw Hd]. split; [|done].
      apply wf_set_activeEffect; [|done]. intros e' [= <-]. by eapply lookup_lt_Some.
    - intros s [Hw Hd]. split; [by apply wf_set_activeEffect|done].
    - done.
    - intros e s _ [Hw Hd]. split; (split; [by apply (wf_same s)|done]).
    - split; [apply wf_empty|]. by intros e eff He'. }
  destruct H as [Hwf Hdd]. split; [|done].
  intros T k. unfold subscribers.
  destruct (dep_of T k st) as [dep|]; [|apply NoDup_nil_2].
  destruct (sets st !! dep) as [s|] eqn:Hs; [simpl|apply NoDup_nil_2].
  by eapply wf_nodup.
Qed.

Lemma no_duplicate_subscriptions_witness :
  let st := state_after 3 should_be_reactive_program empty_state in
  (∀ T k, NoDup (subscribers T k st)) ∧ deps_distinct st.
Proof.
  apply (no_duplicate_subscriptions 3 should_be_reactive_program
           (state_after 3 should_be_reactive_program empty_state) (Ret (VNum 1))).
  vm_compute. reflexivity.
Defined.

(** ** Tracking *)

Lemma subscribers_subscribe_list T k dep e st T' k' :
  wf st → dep_of T k st = Some dep →
  subscribers T' k' (subscribe dep e st)
  = if decide (T' = T ∧ k' = k)
    then (if decide (e ∈ subscribers T k st) then subscribers T k st
          else subscribers T k st ++ [e])
    else subscribers T' k' st.
Proof.
  intros Hwf Hd.
  pose proof (wf_refs _ Hwf _ _ _ Hd) as Hlt.
  destruct (lookup_lt_is_Some_2 _ _ Hlt) as [s Hs].
  assert (HTk : subscribers T k st = s) by (unfold subscribers; by rewrite Hd, Hs).
  unfold subscribe, dep_has. rewrite Hs. rewrite HTk.
  case_bool_decide as Hin.
  - rewrite (decide_True (P := e ∈ s)) by done.
    case_decide as Heq; [|done]. destruct Heq as [-> ->]. done.
  - rewrite (decide_False (P := e ∈ s)) by done.
    unfold subscribers, dep_of. simpl. fold (dep_of T' k' st).
    destruct (decide (T' = T ∧ k' = k)) as [[-> ->]|Hne].
    + rewrite Hd. by rewrite list_lookup_alter_eq, Hs.
    + destruct (dep_of T' k' st) as [dep'|] eqn:Hd'; [|done].
      rewrite list_lookup_alter_ne; [done|]. intros <-.
      destruct (wf_inj _ Hwf _ _ _ _ _ Hd Hd') as [<- <-]. by apply Hne.
Qed.

Lemma subscribers_track_list T k e st T' k' :
  wf st → activeEffect st = Some e →
  subscribers T' k' (track T k st)
  = if decide (T' = T ∧ k' = k)
    then (if decide (e ∈ subscribers T k st) then subscribers T k st
          else subscribers T k st ++ [e])
    else subscribers T' k' st.
Proof.
  intros Hwf Ha. rewrite (track_eq _ _ _ _ Ha).
  assert (Hlog : wf (log_collected T k e st)) by by apply (wf_same st).
  destruct (dep_of T k st) as [dep|] eqn:Hd.
  - rewrite (subscribers_subscribe_list T k) by done.
    by rewrite !(subscribers_same st (log_collected T k e st)).
  - pose proof (wf_alloc T k _ Hlog Hd) as Hal. simpl in Hal.
    rewrite (subscribers_subscribe_list T k); [|done|].
    2:{ erewrite dep_of_alloc by reflexivity. by rewrite decide_True. }
    assert (Hsame : ∀ T0 k0,
              subscribers T0 k0
                (set_targetMap
                   (<[T := <[k := length (sets st)]> (default ∅ (targetMap st !! T))]>
                      (targetMap st))
                   (set_sets (sets st ++ [[]]) (log_collected T k e st)))
              = subscribers T0 k0 st).
    { intros T0 k0. unfold subscribers. erewrite dep_of_alloc by reflexivity. simpl.
      destruct (decide (T0 = T ∧ k0 = k)) as [[-> ->]|Hne].
      - rewrite Hd. by rewrite lookup_app_r, Nat.sub_diag by lia.
      - destruct (dep_of T0 k0 st) as [dep'|] eqn:Hd'; [|done].
        rewrite lookup_app_l; [done|]. by eapply wf_refs. }
    by rewrite !Hsame.
Qed.

(** X4: a read of a key that the running effect already subscribes to
    changes nothing but the record of what [track] collected; so tracking
    the same key twice in a run leaves the graph as after the first
    time. *)
Theorem track_again_only_logs (T : nat) (k : string) (e : nat) (st : state) :
  activeEffect st = Some e →
  (e ∈ subscribers T k st → track T k st = log_collected T k e st)
  ∧ (wf st → track T k (track T k st) = log_collected T k e (track T k st)).
Proof.
  assert (H1 : ∀ s, activeEffect s = Some e → e ∈ subscribers T k s →
               track T k s = log_collected T k e s).
  { intros s Ha. unfold subscribers. rewrite (track_eq _ _ _ _ Ha).
    destruct (dep_of T k s) as [dep|]; [|by intros ?%elem_of_nil].
    destruct (sets s !! dep) as [s0|] eqn:Hs; [simpl|by intros ?%elem_of_nil].
    intros Hin. unfold subscribe, dep_has. simpl. rewrite Hs.
    by rewrite bool_decide_eq_true_2. }
  intros Ha. split; [by apply H1|]. intros Hwf.
  destruct (track_collected T k e st Ha) as [_ Ha'].
  apply H1; [done|]. apply (track_subscribers T k e st); [done..|]. by right.
Qed.

Lemma track_again_only_logs_witness :
  let st := set_activeEffect (Some 0) dummy_registered in
  (0 ∈ subscribers 0 "count" st →
   track 0 "count" st = log_collected 0 "count" 0 st)
  ∧ (wf st →
     track 0 "count" (track 0 "count" st)
     = log_collected 0 "count" 0 (track 0 "count" st)).
Proof.
  apply (track_again_only_logs 0 "count" 0
           (set_activeEffect (Some 0) dummy_registered)).
  reflexivity.
Defined.

(** X5: a read [proxy.k] made while effect [e] is running returns what
    the target holds for [k] and leaves the heap alone; it puts [e] at the
    end of the subscribers of [(T, k)] when it is not among them yet (so
    subscribers are called in the order of their first read) and changes
    the subscribers of no other [(target, key)]. *)
Theorem tracked_read_subscribes (d p T e : nat) (k : string) (st : state) :
  wf st → activeEffect st = Some e → proxies st !! p = Some T →
  String.eqb k IS_REACTIVE = false →
  ∃ st', eval (S d) (Get (Lit (VProxy p)) k) st
         = Some (Ret (Reflect_get T k st), st')
    ∧ heap st' = heap st
    ∧ subscribers T k st'
      = (if decide (e ∈ subscribers T k st) then subscribers T k st
         else subscribers T k st ++ [e])
    ∧ ∀ T' k', ¬ (T' = T ∧ k' = k) →
        subscribers T' k' st' = subscribers T' k' st.
Proof.
  intros Hwf Ha Hp Hk. exists (track T k st).
  destruct (track_frame T k st) as (Hh & _).
  split_and!.
  - simpl. rewrite Hp. unfold proxy_get. rewrite Hk.
    by rewrite (Reflect_get_same st (track T k st)).
  - done.
  - rewrite (subscribers_track_list T k e) by done. by rewrite decide_True.
  - intros T' k' Hne. rewrite (subscribers_track_list T k e) by done.
    by rewrite decide_False.
Qed.

Lemma tracked_read_subscribes_witness :
  let st := set_activeEffect (Some 0) dummy_registered in
  ∃ st', eval 1 (Get (Lit (VProxy 0)) "count") st
         = Some (Ret (Reflect_get 0 "count" st), st')
    ∧ heap st' = heap st
    ∧ subscribers 0 "count" st'
      = (if decide (0 ∈ subscribers 0 "count" st) then subscribers 0 "count" st
         else subscribers 0 "count" st ++ [0])
    ∧ ∀ T' k', ¬ (T' = 0 ∧ k' = "count") →
        subscribers T' k' st' = subscribers T' k' st.
Proof.
  apply (tracked_read_subscribes 0 0 0 0 "count"
           (set_activeEffect (Some 0) dummy_registered)).
  - apply wf_set_activeEffect.
    + intros e [= <-]. vm_compute. lia.
    + apply state_after_wf, wf_observed_count.
  - reflexivity.
  - reflexivity.
  - reflexivity.
Defined.

(** ** Registration *)




(** ** Stopping *)

Lemma filter_all {A} (P : A → Prop) `{∀ x, Decision (P x)} (l : list A) :
  (∀ x, x ∈ l → P x) → filter P l = l.
Proof.
  induction l as [|a l IH]; intros Hall; [done|].
  rewrite filter_cons_True by apply Hall, list_elem_of_here.
  f_equal. apply IH. intros x Hx. by apply Hall, list_elem_of_further.
Qed.

Lemma stop_sets_lookup e eff st dep :
  effects st !! e = Some eff → active eff = true →
  sets (stop e st) !! dep
  = (λ s, if decide (dep ∈ deps eff) then filter (λ x, x ≠ e) s else s)
      <$> sets st !! dep.
Proof.
  intros He Ha. unfold stop. rewrite He, Ha.
  pose proof (lookup_lt_Some _ _ _ He) as Hlt.
  erewrite cleanupEffect_eq; [|simpl; by apply list_lookup_insert_eq].
  cbn [deps]. destruct (deps eff) as [|d0 ds] eqn:Hd.
  - cbn [sets set_effects]. destruct (sets st !! dep) as [s|]; [|done].
    cbn [fmap option_fmap option_map].
    by rewrite decide_False by apply not_elem_of_nil.
  - cbn [sets set_effects set_sets]. by rewrite cleanup_sets_lookup.
Qed.

(** X8: [stop] on a running effect leaves the instance with the flag down
    and an empty [deps], and takes exactly that effect out of the
    subscribers of every [(target, key)]: the other subscribers stay, in
    their order. *)
Theorem stop_removes_only_it (e : nat) (eff : ReactiveEffect) (st : state) :
  wf st → effects st !! e = Some eff → active eff = true →
  effects (stop e st) = <[e := mkEffect false [] (fn eff) (scheduler eff)]> (effects st)
  ∧ ∀ T k, subscribers T k (stop e st) = filter (λ x, x ≠ e) (subscribers T k st).
Proof.
  intros Hwf He Ha. split; [by apply stop_effect|]. intros T k.
  destruct (stop_frame e st) as (_ & _ & _ & Ht & _).
  unfold subscribers, dep_of. rewrite Ht. fold (dep_of T k st).
  destruct (dep_of T k st) as [dep|]; [|done].
  rewrite (stop_sets_lookup _ _ _ _ He Ha).
  destruct (sets st !! dep) as [s|] eqn:Hs; [simpl|done].
  case_decide as Hin; [done|]. symmetry. apply filter_all.
  intros x Hx ->. destruct (wf_member _ Hwf _ _ _ Hs Hx) as (eff' & He' & Hd).
  congruence.
Qed.

Lemma stop_removes_only_it_witness :
  effects (stop 1 live_set_demo)
  = <[1 := mkEffect false [] read_count None]> (effects live_set_demo)
  ∧ ∀ T k, subscribers T k (stop 1 live_set_demo)
           = filter (λ x, x ≠ 1) (subscribers T k live_set_demo).
Proof.
  apply (stop_removes_only_it 1 (mkEffect true [0] read_count None) live_set_demo).
  - apply state_after_wf, wf_observed_count.
  - reflexivity.
  - reflexivity.
Defined.

(** The second subscriber of the demonstration, stopped from outside
    its run. *)
Lemma stop_is_final_witness :
  (∀ st', later (stop 1 live_set_demo) st' → ∀ T k, 1 ∉ subscribers T k st')
  ∧ (∀ d t o st', eval d t (stop 1 live_set_demo) = Some (o, st') →
       Forall (λ ev, ev ≠ Ran 1 ∧ ev ≠ Scheduled 1)
              (drop (length (fired live_set_demo)) (fired st'))).
Proof.
  apply (stop_is_final 1 (mkEffect true [0] read_count None) live_set_demo).
  - apply state_after_wf, wf_observed_count.
  - reflexivity.
  - reflexivity.
  - discriminate.
Defined.

Lemma wf_Reflect_set T k v st : wf st → wf (Reflect_set T k v st).
Proof. intros Hwf. by apply (wf_same st). Qed.

(** *** Every subscriber gets its call *)

Lemma call_in_order_app d l1 l2 st :
  call_in_order d (l1 ++ l2) st
  = and_then (call_in_order d l1 st) (λ _ s, call_in_order d l2 s).
Proof.
  revert st. induction l1 as [|[e eff] l1 IH]; intros st; [done|].
  cbn [app call_in_order].
  destruct (call_subscriber d e eff st) as [[[r|x] s]|]; cbn [and_then]; [|done..].
  apply IH.
Qed.

Lemma call_in_order_thrown d l st x st' :
  call_in_order d l st = Some (Thrown x, st') →
  ∃ pre e eff post r s, l = pre ++ (e, eff) :: post
    ∧ call_in_order d pre st = Some (Ret r, s)
    ∧ call_subscriber d e eff s = Some (Thrown x, st').
Proof.
  revert st. induction l as [|[e eff] l IH]; intros st; [done|].
  cbn [call_in_order].
  destruct (call_subscriber d e eff st) as [[[r|y] s]|] eqn:Hc; cbn [and_then];
    [|intros [= <- <-]|done].
  - intros (pre & e1 & eff1 & post & r1 & s1 & -> & Hpre & Hthrow)%IH.
    exists ((e, eff) :: pre), e1, eff1, post, r1, s1. split_and!; [done| |done].
    cbn [call_in_order]. by rewrite Hc.
  - exists [], e, eff, l, VUndefined, st. by split_and!.
Qed.

Lemma call_in_order_returned d pre e eff post st v st' :
  call_in_order d (pre ++ (e, eff) :: post) st = Some (Ret v, st') →
  ∃ r s r1 s1, call_in_order d pre st = Some (Ret r, s)
    ∧ call_subscriber d e eff s = Some (Ret r1, s1)
    ∧ call_in_order d post s1 = Some (Ret v, st').
Proof.
  rewrite call_in_order_app.
  destruct (call_in_order d pre st) as [[[r|x] s]|]; cbn [and_then]; [|done..].
  cbn [call_in_order].
  destruct (call_subscriber d e eff s) as [[[r1|x] s1]|] eqn:Hc; cbn [and_then];
    [|done..].
  intros H. by exists r, s, r1, s1.
Qed.

(** X10: what a [trigger] that comes to an end has done, in terms of the
    user's functions.  When it returns, every member of the set as it was
    at entry got its call, in its turn: the members before it had been
    called and had returned, its own scheduler or function was evaluated
    from the state they left and returned, and the members after it were
    called from the state it left.  When it throws, the exception is the
    one that the call of some member threw, the members before that one
    had been called and had returned, the state is the one the throwing
    call left, and the members after it were not called. *)
Theorem trigger_calls_every_subscriber (d T : nat) (k : string) (st : state)
    (o : outcome) (st' : state) :
  wf st → trigger (eval d) T k st = Some (o, st') →
  match o with
  | Ret v =>
      ∀ pre e eff post, snapshot T k st = pre ++ (e, eff) :: post →
        ∃ r s r1 s1, call_in_order d pre st = Some (Ret r, s)
          ∧ call_subscriber d e eff s = Some (Ret r1, s1)
          ∧ call_in_order d post s1 = Some (Ret v, st')
  | Thrown x =>
      ∃ pre e eff post r s, snapshot T k st = pre ++ (e, eff) :: post
        ∧ call_in_order d pre st = Some (Ret r, s)
        ∧ call_subscriber d e eff s = Some (Thrown x, st')
  end.
Proof.
  intros Hwf. rewrite (trigger_call_in_order d T k st Hwf).
  destruct o as [v|x]; intros Hc.
  - intros pre e eff post Heq. rewrite Heq in Hc.
    by apply call_in_order_returned.
  - by apply call_in_order_thrown.
Qed.

(** Three subscribers, the second of which throws: the write
    [observed.count = 1] has been made and [trigger] is called. *)
Lemma trigger_calls_every_subscriber_witness :
  ∃ pre e eff post r s,
    snapshot 0 "count" (Reflect_set 0 "count" (VNum 1) throwing_demo)
    = pre ++ (e, eff) :: post
    ∧ call_in_order 1 pre (Reflect_set 0 "count" (VNum 1) throwing_demo)
      = Some (Ret r, s)
    ∧ call_subscriber 1 e eff s
      = Some (Thrown (VStr "boom"), throwing_demo_triggered).
Proof.
  apply (trigger_calls_every_subscriber 1 0 "count"
           (Reflect_set 0 "count" (VNum 1) throwing_demo)
           (Thrown (VStr "boom")) throwing_demo_triggered).
  - apply wf_Reflect_set. unfold throwing_demo.
    apply state_after_wf, wf_observed_count.
  - vm_compute. reflexivity.
Defined.

(** In that demonstration the write is made, the first two subscribers
    are called, the exception of the second reaches the code that
    assigned, and the third subscriber is not called: [dummy] keeps the
    value of its first run. *)
Lemma throwing_demo_write :
  subscribers 0 "count" throwing_demo = [0; 1; 2]
  ∧ ∃ st', eval 2 (Put (Var "observed") "count" (Lit (VNum 1))) throwing_demo
           = Some (Thrown (VStr "boom"), st')
      ∧ st' = throwing_demo_triggered
      ∧ Reflect_get 0 "count" st' = VNum 1
      ∧ vars st' !! "dummy" = Some (VNum 0)
      ∧ fired st' = [Ran 0; Ran 1].
Proof.
  split; [vm_compute; reflexivity|]. eexists. split_and!; vm_compute; reflexivity.
Qed.

(** In the cascade the calls are: the first subscriber of [count], the
    subscriber of [double] that its write triggers, the second subscriber
    of [count]. *)
Lemma cascade_calls :
  subscribers 0 "count" cascade_written = [0; 2]
  ∧ fired cascade_written = []
  ∧ fired (state_after 3 (Put (Var "observed") "count" (Lit (VNum 1)))
             cascade_registered)
    = [Ran 0; Ran 1; Ran 2].
Proof. split_and!; vm_compute; reflexivity. Qed.

(** ** The life of an effect instance *)

Lemma evolves_refl st : evolves st st.
Proof. intros e eff He. by exists eff. Qed.

Lemma evolves_trans st1 st2 st3 :
  evolves st1 st2 → evolves st2 st3 → evolves st1 st3.
Proof.
  intros H1 H2 e eff He. destruct (H1 _ _ He) as (eff2 & He2 & Hf2 & Hs2 & Ha2).
  destruct (H2 _ _ He2) as (eff3 & He3 & Hf3 & Hs3 & Ha3).
  exists eff3. split_and!; [done|congruence..|by auto].
Qed.

Lemma evolves_same st st' : effects st' = effects st → evolves st st'.
Proof. intros Hes e eff He. exists eff. by rewrite Hes. Qed.

(** X11: an effect instance, once created, is there for good: whatever
    client code does afterwards, the instance is still registered under
    the same reference with the same [fn] and [scheduler], and once its
    [active] flag is down it never goes up again. *)
Theorem effects_evolve (d : nat) (t : term) (st st' : state) (o : outcome) :
  eval d t st = Some (o, st') → evolves st st'.
Proof.
  apply (eval_relation evolves).
  - apply evolves_refl.
  - apply evolves_trans.
  - intros vs s. by apply evolves_same.
  - intros h s. by apply evolves_same.
  - intros v s. apply evolves_same.
    by destruct (reactive_frame v s) as (_ & _ & _ & -> & _).
  - intros T k s _. destruct (track_effects T k s) as [Hsame | (e & dep & Halt)].
    + by apply evolves_same.
    + intros e0 eff0 He0. rewrite Halt, list_lookup_alter.
      destruct (decide (e = e0)) as [->|]; [|by exists eff0].
      rewrite He0. simpl. eexists. by split_and!.
  - intros e s. destruct (effects s !! e) as [eff|] eqn:He;
      [|apply evolves_same; unfold stop; by rewrite He].
    destruct (active eff) eqn:Ha;
      [|apply evolves_same; unfold stop; by rewrite He, Ha].
    intros e0 eff0 He0. rewrite (stop_effect _ _ _ He Ha).
    destruct (decide (e = e0)) as [<-|].
    + rewrite list_lookup_insert_eq by by eapply lookup_lt_Some.
      eexists. split; [done|]. simpl. split_and!; congruence.
    + rewrite list_lookup_insert_ne by done. by exists eff0.
  - intros body sched s e eff He. exists eff. split; [|done].
    by apply lookup_app_l_Some.
  - intros ev s. by apply evolves_same.
  - intros e eff s s1 _ _ H. exact H.
Qed.

(** The effect that stops itself: run again by the later write, it is
    still stopped. *)
Lemma effects_evolve_witness :
  evolves after_self_stop
    (state_after 2 (Put (Var "observed") "count" (Lit (VNum 2))) after_self_stop).
Proof.
  apply (effects_evolve 2 (Put (Var "observed") "count" (Lit (VNum 2)))
           after_self_stop _ (Ret (VNum 2))).
  vm_compute. reflexivity.
Defined.

(** ** Writes *)

(** X12: an assignment through the proxy to a key that has no subscriber
    (never read in an effect, or read only by effects stopped since) just
    writes: it returns the value and the only change is the property of
    the target. *)
Theorem write_without_subscribers (d p T : nat) (k : string) (v : value)
    (st : state) :
  proxies st !! p = Some T → subscribers T k st = [] →
  eval (S d) (Put (Lit (VProxy p)) k (Lit v)) st
  = Some (Ret v, Reflect_set T k v st).
Proof.
  intros Hp Hs. simpl. rewrite Hp. unfold proxy_set.
  destruct (negb _); [|done]. rewrite trigger_forEach.
  rewrite (subscribers_same st (Reflect_set T k v st)) by done.
  by rewrite Hs.
Qed.

Lemma write_without_subscribers_witness :
  eval 1 (Put (Lit (VProxy 0)) "other" (Lit (VNum 7))) dummy_registered
  = Some (Ret (VNum 7), Reflect_set 0 "other" (VNum 7) dummy_registered).
Proof.
  apply (write_without_subscribers 0 0 0 "other" (VNum 7) dummy_registered);
    reflexivity.
Defined.

Lemma strict_eq_refl v : v ≠ VNaN → strict_eq v v = true.
Proof.
  destruct v; simpl; try done; intros _.
  - by destruct b.
  - apply Z.eqb_refl.
  - apply String.eqb_refl.
  - apply Nat.eqb_refl.
  - apply Nat.eqb_refl.
  - apply Nat.eqb_refl.
Qed.

(** X13: assigning to a key the value it holds calls no one, however
    many subscribers the key has: the check [oldValue !== value] finds no
    change.  That includes [undefined] assigned to a key the target does
    not have (the key is created and no one is told).  [NaN] is the one
    value for which this does not hold. *)
Theorem write_same_value_is_silent (d p T : nat) (k : string) (st : state) :
  proxies st !! p = Some T → Reflect_get T k st ≠ VNaN →
  eval (S d) (Put (Lit (VProxy p)) k (Lit (Reflect_get T k st))) st
  = Some (Ret (Reflect_get T k st), Reflect_set T k (Reflect_get T k st) st)
  ∧ fired (Reflect_set T k (Reflect_get T k st) st) = fired st
  ∧ (∀ props v, heap st !! T = Some props → props !! k = Some v →
       Reflect_set T k (Reflect_get T k st) st = st).
Proof.
  intros Hp Hn. split_and!.
  - simpl. rewrite Hp. unfold proxy_set. by rewrite strict_eq_refl.
  - done.
  - intros props v Hprops Hv. unfold Reflect_set, Reflect_get.
    rewrite Hprops, Hv. simpl.
    assert (alter (insert k v) T (heap st) = heap st) as ->; [|by destruct st].
    apply list_eq. intros i. rewrite list_lookup_alter.
    destruct (decide (T = i)) as [<-|]; [|done].
    rewrite Hprops. simpl. by rewrite insert_id.
Qed.

Lemma write_same_value_is_silent_witness :
  eval 1 (Put (Lit (VProxy 0)) "count" (Lit (Reflect_get 0 "count" dummy_written)))
       dummy_written
  = Some (Ret (Reflect_get 0 "count" dummy_written),
          Reflect_set 0 "count" (Reflect_get 0 "count" dummy_written) dummy_written)
  ∧ fired (Reflect_set 0 "count" (Reflect_get 0 "count" dummy_written) dummy_written)
    = fired dummy_written
  ∧ (∀ props v, heap dummy_written !! 0 = Some props → props !! "count" = Some v →
       Reflect_set 0 "count" (Reflect_get 0 "count" dummy_written) dummy_written
       = dummy_written).
Proof.
  apply (write_same_value_is_silent 0 0 0 "count" dummy_written).
  - reflexivity.
  - vm_compute. discriminate.
Defined.

Lemma Reflect_set_same T k st props :
  heap st !! T = Some props → props !! k = Some (Reflect_get T k st) →
  Reflect_set T k (Reflect_get T k st) st = st.
Proof.
  intros Hprops Hv. unfold Reflect_set.
  assert (alter (insert k (Reflect_get T k st)) T (heap st) = heap st) as ->;
    [|by destruct st].
  apply list_eq. intros i. rewrite list_lookup_alter.
  destruct (decide (T = i)) as [<-|]; [|done].
  rewrite Hprops. simpl. by rewrite insert_id.
Qed.

(** X14: [NaN] is always a change, since [NaN !== NaN]: assigning [NaN]
    to a key that holds [NaN] leaves the object as it is and yet calls the
    subscribers of the key, all of them, in their order, each run or
    handed to its scheduler; what the assignment leaves is what these
    calls leave. *)
Theorem write_NaN_over_NaN_triggers (d p T : nat) (k : string) (st : state) :
  wf st → proxies st !! p = Some T → Reflect_get T k st = VNaN →
  Reflect_set T k VNaN st = st
  ∧ (snapshot T k st).*1 = subscribers T k st
  ∧ eval (S d) (Put (Lit (VProxy p)) k (Lit VNaN)) st
    = and_then (call_in_order d (snapshot T k st) st)
               (λ _ st', Some (Ret VNaN, st')).
Proof.
  intros Hwf Hp Hn.
  assert (Hsame : Reflect_set T k VNaN st = st).
  { rewrite <- Hn. unfold Reflect_get in Hn.
    destruct (heap st !! T) as [props|] eqn:Hprops; [|done].
    destruct (props !! k) as [v|] eqn:Hv; [|done]. simpl in Hn. subst v.
    apply (Reflect_set_same T k st props Hprops).
    unfold Reflect_get. by rewrite Hprops, Hv. }
  split_and!; [done|by apply snapshot_members|].
  rewrite (put_call_in_order d p T k VNaN st Hwf Hp), Hn, Hsame. done.
Qed.

(** An object whose [count] is [NaN], with one effect that reads it. *)
Lemma write_NaN_over_NaN_triggers_witness :
  Reflect_set 0 "count" VNaN nan_registered = nan_registered
  ∧ (snapshot 0 "count" nan_registered).*1 = subscribers 0 "count" nan_registered
  ∧ eval 2 (Put (Lit (VProxy 0)) "count" (Lit VNaN)) nan_registered
    = and_then (call_in_order 1 (snapshot 0 "count" nan_registered) nan_registered)
               (λ _ st', Some (Ret VNaN, st')).
Proof.
  apply (write_NaN_over_NaN_triggers 1 0 0 "count" nan_registered).
  - apply state_after_wf, wf_empty.
  - reflexivity.
  - reflexivity.
Defined.

(** There the one subscriber is run again by the write. *)
Lemma nan_registered_write :
  subscribers 0 "count" nan_registered = [0]
  ∧ collected nan_registered = [(0, "count", 0)]
  ∧ collected (state_after 2 (Put (Lit (VProxy 0)) "count" (Lit VNaN)) nan_registered)
    = [(0, "count", 0); (0, "count", 0)].
Proof. split_and!; vm_compute; reflexivity. Qed.

(** ** The marker key *)

(** X15: the marker key never enters the dependency graph: reads of
    [__v_isReactive] through a proxy are answered by the [get] handler
    before [track], so whatever client code does, no dependency set is
    ever made for that key of any target, and it has no subscribers. *)
Theorem marker_never_tracked (d : nat) (t : term) (st st' : state) (o : outcome) :
  (∀ T, dep_of T IS_REACTIVE st = None) →
  eval d t st = Some (o, st') →
  ∀ T, dep_of T IS_REACTIVE st' = None ∧ subscribers T IS_REACTIVE st' = [].
Proof.
  intros H0 He.
  assert (H : ∀ T, dep_of T IS_REACTIVE st' = None).
  { revert He H0.
    apply (eval_relation
             (λ s s', (∀ T, dep_of T IS_REACTIVE s = None) →
                      ∀ T, dep_of T IS_REACTIVE s' = None)).
    - done.
    - by eauto.
    - done.
    - done.
    - intros v s H T. unfold dep_of.
      destruct (reactive_frame v s) as (_ & -> & _). apply H.
    - intros T k s Hk H T'. rewrite track_targetMap_other; [done|].
      intros [_ <-]. by rewrite String.eqb_refl in Hk.
    - intros e s H T. unfold dep_of.
      destruct (stop_frame e s) as (_ & _ & _ & -> & _). apply H.
    - done.
    - done.
    - intros e eff s s1 _ _ H. exact H. }
  intros T. split; [done|]. unfold subscribers. by rewrite H.
Qed.

Lemma marker_never_tracked_witness :
  dep_of 0 IS_REACTIVE
    (state_after 3 (Get (Var "observed") IS_REACTIVE) live_set_demo) = None
  ∧ subscribers 0 IS_REACTIVE
      (state_after 3 (Get (Var "observed") IS_REACTIVE) live_set_demo) = [].
Proof.
  refine (marker_never_tracked 3
           (Seq (Assign "observed" (Reactive (NewObj {[ "count" := VNum 0 ]})))
           (Seq (Effect meddling_body)
           (Seq (Effect read_count)
           (Seq (NewScheduled read_count (Assign "scheduled" (Lit (VBool true))))
           (Seq (Run 2)
           (Seq (Assign "armed" (Lit (VBool true)))
                (Get (Var "observed") IS_REACTIVE)))))))
           empty_state _ (Ret (VBool true)) _ _ 0).
  - done.
  - vm_compute. reflexivity.
Defined.

(** X16: the set handler does not protect the marker key and [reactive]
    trusts the target's own property: [proxy.__v_isReactive = v] with a
    truthy [v] stores [v] in the target and calls no one, and from then on
    [reactive(target)] hands the target itself back, not the proxy that is
    cached for it and that it returned before. *)
Theorem marked_target_is_returned_as_is (d p T : nat) (v : value) (st : state) :
  proxies st !! p = Some T → is_Some (heap st !! T) → truthy v = true →
  subscribers T IS_REACTIVE st = [] →
  let st' := Reflect_set T IS_REACTIVE v st in
  eval (S d) (Put (Lit (VProxy p)) IS_REACTIVE (Lit v)) st = Some (Ret v, st')
  ∧ reactive (VObj T) st' = (VObj T, st')
  ∧ (truthy (Reflect_get T IS_REACTIVE st) = false →
     reactiveMap st !! T = Some p →
     reactive (VObj T) st = (VProxy p, st) ∧ reactiveMap st' !! T = Some p).
Proof.
  intros Hp [props Hprops] Hv Hs st'. split_and!.
  - simpl. rewrite Hp. unfold proxy_set.
    destruct (negb _); [|done]. rewrite trigger_forEach.
    rewrite (subscribers_same st (Reflect_set T IS_REACTIVE v st)) by done.
    by rewrite Hs.
  - assert (Hm : Reflect_get T IS_REACTIVE st' = v).
    { unfold Reflect_get, st'. simpl. rewrite list_lookup_alter_eq, Hprops. simpl.
      by rewrite lookup_insert_eq. }
    unfold reactive. simpl. by rewrite Hm, Hv.
  - intros Hm Hc. split; [by apply reactive_cached|done].
Qed.

Lemma marked_target_is_returned_as_is_witness :
  let st' := Reflect_set 0 IS_REACTIVE (VBool true) dummy_registered in
  eval 1 (Put (Lit (VProxy 0)) IS_REACTIVE (Lit (VBool true))) dummy_registered
  = Some (Ret (VBool true), st')
  ∧ reactive (VObj 0) st' = (VObj 0, st')
  ∧ (truthy (Reflect_get 0 IS_REACTIVE dummy_registered) = false →
     reactiveMap dummy_registered !! 0 = Some 0 →
     reactive (VObj 0) dummy_registered = (VProxy 0, dummy_registered)
     ∧ reactiveMap st' !! 0 = Some 0).
Proof.
  apply (marked_target_is_returned_as_is 0 0 0 (VBool true) dummy_registered).
  - reflexivity.
  - eexists. reflexivity.
  - reflexivity.
  - reflexivity.
Defined.

(** ** Proxies over whole programs *)

Lemma proxies_consistent_empty : proxies_consistent empty_state.
Proof. intros o p. simpl. by rewrite lookup_empty. Qed.

Lemma reactive_proxies_consistent v st :
  proxies_consistent st → proxies_consistent (reactive v st).2.
Proof.
  intros Hc. unfold reactive.
  destruct (negb (truthy v) || negb (typeof_object v)); [done|].
  destruct (truthy (read_marker v st)); [done|].
  destruct v as [| | | | | |o|p|e]; try done.
  destruct (reactiveMap st !! o) as [q|] eqn:Hq; [done|]. simpl.
  intros o' p'. simpl. split.
  - destruct (decide (o = o')) as [<-|Hne].
    + rewrite lookup_insert_eq. intros [= <-].
      by rewrite lookup_app_r, Nat.sub_diag by lia.
    + rewrite lookup_insert_ne by done. intros H%Hc. by apply lookup_app_l_Some.
  - intros [H | [Hge H]]%lookup_app_Some.
    + apply Hc in H. destruct (decide (o = o')) as [<-|Hne]; [congruence|].
      by rewrite lookup_insert_ne.
    + apply list_lookup_singleton_Some in H as [Hz <-].
      rewrite lookup_insert_eq. f_equal. lia.
Qed.

Lemma eval_proxies_consistent d t st o st' :
  proxies_consistent st → eval d t st = Some (o, st') → proxies_consistent st'.
Proof.
  intros Hc He. revert He Hc.
  apply (eval_relation (λ s s', proxies_consistent s → proxies_consistent s')).
  - done.
  - by eauto.
  - done.
  - done.
  - intros v s. apply reactive_proxies_consistent.
  - intros T k s _ H o' p'.
    destruct (track_frame T k s) as (_ & -> & -> & _). apply H.
  - intros e s H o' p'.
    destruct (stop_frame e s) as (_ & -> & -> & _). apply H.
  - done.
  - done.
  - intros e eff s s1 _ _ H. exact H.
Qed.

(** X17: proxies and targets are in one-to-one correspondence over whole
    programs: the proxy that [reactiveMap] holds for a target is a proxy
    of that target, every proxy ever created is the one cached for its
    target, and so two targets never share a proxy and a target never has
    two. *)
Theorem proxies_stay_consistent (d : nat) (t : term) (st : state) (o : outcome) :
  eval d t empty_state = Some (o, st) →
  proxies_consistent st
  ∧ (∀ T1 T2 p, reactiveMap st !! T1 = Some p → reactiveMap st !! T2 = Some p →
       T1 = T2)
  ∧ (∀ p1 p2 T, proxies st !! p1 = Some T → proxies st !! p2 = Some T → p1 = p2).
Proof.
  intros He.
  assert (H : proxies_consistent st)
    by (eapply eval_proxies_consistent; [apply proxies_consistent_empty|done]).
  split_and!; [done|..].
  - intros T1 T2 p H1%H H2%H. congruence.
  - intros p1 p2 T H1%H H2%H. congruence.
Qed.

Lemma proxies_stay_consistent_witness :
  let st := state_after 3 should_be_reactive_program empty_state in
  proxies_consistent st
  ∧ (∀ T1 T2 p, reactiveMap st !! T1 = Some p → reactiveMap st !! T2 = Some p →
       T1 = T2)
  ∧ (∀ p1 p2 T, proxies st !! p1 = Some T → proxies st !! p2 = Some T → p1 = p2).
Proof.
  apply (proxies_stay_consistent 3 should_be_reactive_program
           (state_after 3 should_be_reactive_program empty_state) (Ret (VNum 1))).
  vm_compute. reflexivity.
Defined.

Lemma proxies_kept_refl st : proxies_kept st st.
Proof. by split. Qed.

Lemma proxies_kept_trans st1 st2 st3 :
  proxies_kept st1 st2 → proxies_kept st2 st3 → proxies_kept st1 st3.
Proof. intros [H1 H1'] [H2 H2']. split; by eauto. Qed.

Lemma proxies_kept_same st st' :
  proxies st' = proxies st → reactiveMap st' = reactiveMap st →
  proxies_kept st st'.
Proof. intros Hp Hr. split; intros ? ?; by rewrite ?Hp, ?Hr. Qed.

(** X18: the identity of a proxy is stable over whole programs: once a
    proxy is cached for a target, whatever client code does afterwards,
    the proxy keeps its target, the cache keeps the proxy, and
    [reactive(target)] returns that same proxy again, as long as the
    target has not been given a truthy [__v_isReactive] property. *)
Theorem proxy_identity_is_stable (d : nat) (t : term) (st st' : state)
    (o : outcome) :
  eval d t st = Some (o, st') →
  proxies_kept st st'
  ∧ ∀ T p, reactiveMap st !! T = Some p →
      truthy (Reflect_get T IS_REACTIVE st') = false →
      reactive (VObj T) st' = (VProxy p, st').
Proof.
  intros He.
  assert (H : proxies_kept st st').
  { revert He. apply (eval_relation proxies_kept).
    - apply proxies_kept_refl.
    - apply proxies_kept_trans.
    - intros vs s. by apply proxies_kept_same.
    - intros h s. by apply proxies_kept_same.
    - intros v s. unfold reactive.
      destruct (negb (truthy v) || negb (typeof_object v));
        [apply proxies_kept_refl|].
      destruct (truthy (read_marker v s)); [apply proxies_kept_refl|].
      destruct v as [| | | | | |o'|p'|e']; try apply proxies_kept_refl.
      destruct (reactiveMap s !! o') as [q|] eqn:Hq; [apply proxies_kept_refl|].
      split; simpl.
      + intros p0 T0 H0. by apply lookup_app_l_Some.
      + intros T0 p0 H0. rewrite lookup_insert_ne; [done|]. congruence.
    - intros T k s _. destruct (track_frame T k s) as (_ & Hp & Hr & _).
      by apply proxies_kept_same.
    - intros e s. destruct (stop_frame e s) as (_ & Hp & Hr & _).
      by apply proxies_kept_same.
    - intros body sched s. by apply proxies_kept_same.
    - intros ev s. by apply proxies_kept_same.
    - intros e eff s s1 _ _ H. exact H. }
  split; [done|]. intros T p Hc Hm. apply reactive_cached; [done|].
  by apply H.
Qed.

Lemma proxy_identity_is_stable_witness :
  let st' := state_after 2 (Put (Var "observed") "count" (Lit (VNum 1)))
               dummy_registered in
  proxies_kept dummy_registered st'
  ∧ ∀ T p, reactiveMap dummy_registered !! T = Some p →
      truthy (Reflect_get T IS_REACTIVE st') = false →
      reactive (VObj T) st' = (VProxy p, st').
Proof.
  apply (proxy_identity_is_stable 2 (Put (Var "observed") "count" (Lit (VNum 1)))
           dummy_registered _ (Ret (VNum 1))).
  vm_compute. reflexivity.
Defined.

(** ** Running a stopped effect *)

Lemma untracked_refl st : untracked st st.
Proof. by repeat split. Qed.

Lemma untracked_trans st1 st2 st3 :
  untracked st1 st2 → untracked st2 st3 → untracked st1 st3.
Proof.
  intros (H1 & H2 & H3 & H4 & H5 & H6) (G1 & G2 & G3 & G4 & G5 & G6).
  repeat split; congruence.
Qed.

(** Code that only reads, run while no effect is active, leaves the
    graph, the effects and the records as they are. *)
Lemma reader_ev_untracked call t st :
  reader t = true → activeEffect st = None →
  ∃ o st', ev call t st = Some (o, st') ∧ untracked st st'.
Proof.
  revert st.
  induction t as [v|x|x t IH|f t IH|f t1 IH1 t2 IH2|t1 IH1 t2 IH2
                  |c IHc t1 IH1 t2 IH2|t IH|props|t IH k|t1 IH1 k t2 IH2
                  |t IH|body _|body _|body _ sched _|e0|e0];
    intros st Hr Ha; simpl in Hr; try done; simpl.
  - eexists _, _. split; [done|]. apply untracked_refl.
  - eexists _, _. split; [done|]. apply untracked_refl.
  - destruct (IH st Hr Ha) as ([v|y] & st1 & -> & Hu); simpl; [|by eauto].
    eexists _, _. split; [done|]. eapply untracked_trans; [done|]. by repeat split.
  - destruct (IH st Hr Ha) as ([v|y] & st1 & -> & Hu); simpl; by eauto.
  - apply andb_prop in Hr as [Hr1 Hr2].
    destruct (IH1 st Hr1 Ha) as ([v1|y] & st1 & -> & Hu1); simpl; [|by eauto].
    assert (Ha1 : activeEffect st1 = None)
      by (destruct Hu1 as (_ & _ & _ & -> & _); done).
    destruct (IH2 st1 Hr2 Ha1) as ([v2|y] & st2 & -> & Hu2); simpl;
      eexists _, _; (split; [done|]); by eapply untracked_trans.
  - apply andb_prop in Hr as [Hr1 Hr2].
    destruct (IH1 st Hr1 Ha) as ([v1|y] & st1 & -> & Hu1); simpl; [|by eauto].
    assert (Ha1 : activeEffect st1 = None)
      by (destruct Hu1 as (_ & _ & _ & -> & _); done).
    destruct (IH2 st1 Hr2 Ha1) as (o & st2 & -> & Hu2).
    eexists _, _; (split; [done|]); by eapply untracked_trans.
  - apply andb_prop in Hr as [[Hrc Hr1]%andb_prop Hr2].
    destruct (IHc st Hrc Ha) as ([v|y] & st1 & -> & Hu1); simpl; [|by eauto].
    assert (Ha1 : activeEffect st1 = None)
      by (destruct Hu1 as (_ & _ & _ & -> & _); done).
    destruct (truthy v).
    + destruct (IH1 st1 Hr1 Ha1) as (o & st2 & -> & Hu2).
      eexists _, _; (split; [done|]); by eapply untracked_trans.
    + destruct (IH2 st1 Hr2 Ha1) as (o & st2 & -> & Hu2).
      eexists _, _; (split; [done|]); by eapply untracked_trans.
  - destruct (IH st Hr Ha) as ([v|y] & st1 & -> & Hu); simpl; by eauto.
  - eexists _, _. split; [done|]. by repeat split.
  - destruct (IH st Hr Ha) as ([v|y] & st1 & -> & Hu); simpl; [|by eauto].
    assert (Ha1 : activeEffect st1 = None)
      by (destruct Hu as (_ & _ & _ & -> & _); done).
    destruct v; try by eauto.
    destruct (proxies st1 !! p) as [T|]; [|by eauto].
    unfold proxy_get. destruct (String.eqb k IS_REACTIVE); [by eauto|].
    assert (track T k st1 = st1) as -> by (unfold track; by rewrite Ha1).
    by eauto.
  - destruct (IH st Hr Ha) as ([v|y] & st1 & -> & Hu); simpl; [|by eauto].
    destruct (reactive_frame v st1) as (_ & H1 & H2 & H3 & H4 & _ & H5 & H6).
    destruct (reactive v st1) as [r st2]. simpl in *.
    eexists _, _. split; [done|]. eapply untracked_trans; [done|].
    by repeat split.
Qed.

(** X19: calling the runner of a stopped effect outside any effect just
    evaluates its function: for a function that only reads, the call
    completes and no dependency is collected, no subscription is made, no
    effect is changed or called, and the slot stays empty. *)
Theorem run_stopped_tracks_nothing (d e : nat) (eff : ReactiveEffect)
    (st : state) :
  effects st !! e = Some eff → active eff = false →
  reader (fn eff) = true → activeEffect st = None →
  ∃ o st', run (eval (S d)) e st = Some (o, st')
    ∧ untracked st st'
    ∧ ∀ T k, subscribers T k st' = subscribers T k st.
Proof.
  intros He Ha Hr Hn. rewrite (run_stopped _ _ _ _ He Ha).
  destruct (reader_ev_untracked (eval d) (fn eff) st Hr Hn) as (o & st' & Hev & Hu).
  exists o, st'. split_and!; [done..|].
  intros T k. destruct Hu as (Ht & Hs & _). by apply subscribers_same.
Qed.

Lemma run_stopped_tracks_nothing_witness :
  ∃ o st', run (eval 1) 1 (stop 1 live_set_demo) = Some (o, st')
    ∧ untracked (stop 1 live_set_demo) st'
    ∧ ∀ T k, subscribers T k st' = subscribers T k (stop 1 live_set_demo).
Proof.
  apply (run_stopped_tracks_nothing 0 1 (mkEffect false [] read_count None)
           (stop 1 live_set_demo)); reflexivity.
Defined.



(** ** Schedulers *)

Lemma forEach_scheduled d snapshot st :
  activeEffect st = None → Forall (scheduled_reader st) snapshot →
  ∃ o st' n, forEach (eval (S d)) snapshot st = Some (o, st')
    ∧ targetMap st' = targetMap st ∧ sets st' = sets st
    ∧ effects st' = effects st ∧ activeEffect st' = None
    ∧ collected st' = collected st
    ∧ fired st' = fired st ++ (Scheduled <$> take n snapshot)
    ∧ ∀ v, o = Ret v → n = length snapshot.
Proof.
  revert st. induction snapshot as [|e rest IH]; intros st Ha Hall.
  - exists (Ret VUndefined), st, 0. simpl. by rewrite app_nil_r.
  - apply Forall_cons in Hall as [(eff & sched & He & Hs & Hr) Hrest].
    cbn [forEach]. unfold invoke. rewrite He, Hs.
    destruct (reader_ev_untracked (eval d) sched (log_event (Scheduled e) st) Hr Ha)
      as (o1 & st1 & Hev & Ht1 & Hs1 & He1 & Ha1 & Hc1 & Hf1).
    change (eval (S d) sched) with (ev (eval d) sched). rewrite Hev.
    simpl in Ht1, Hs1, He1, Ha1, Hc1, Hf1.
    destruct o1 as [v1|x]; cbn [and_then].
    + destruct (IH st1) as (o & st' & n & -> & Ht & Hss & Hes & Has & Hcs & Hfs & Hn).
      { congruence. }
      { eapply Forall_impl; [done|]. intros e' (eff' & sched' & He' & Hrest').
        exists eff', sched'. by rewrite He1. }
      exists o, st', (S n). split_and!; try congruence.
      * rewrite Hfs, Hf1. cbn [take fmap list_fmap]. by rewrite <- app_assoc.
      * by intros v ->%Hn.
    + exists (Thrown x), st1, 1. split_and!; try done; congruence.
Qed.

(** With schedulers throughout, the walk of [forEach] is the evaluation of
    the schedulers. *)
Lemma forEach_schedule_in_order d st0 l st :
  Forall (scheduled_reader st0) l → same_code st0 st →
  forEach (eval d) l st
  = schedule_in_order d
      (omap (λ e, eff ← effects st0 !! e; pair e <$> scheduler eff) l) st
  ∧ (omap (λ e, eff ← effects st0 !! e; pair e <$> scheduler eff) l).*1 = l.
Proof.
  intros Hall. revert st.
  induction Hall as [|e l (eff & sched & He & Hs & _) _ IH]; intros st Hc; [done|].
  cbn [omap list_omap]. rewrite He. cbn [mbind option_bind]. rewrite Hs.
  cbn [fmap option_fmap option_map list_fmap fst forEach schedule_in_order].
  destruct (Hc _ _ He) as (eff' & He' & _ & Hs').
  assert (Hi : invoke (eval d) e st = eval d sched (log_event (Scheduled e) st)).
  { unfold invoke. by rewrite He', Hs', Hs. }
  split.
  - rewrite <- Hi.
    destruct (invoke (eval d) e st) as [[[v|x] st1]|] eqn:Hinv; [|done..].
    cbn [and_then]. apply IH.
    destruct (invoke_logs d e st (Ret v) st1) as [Hc1 _]; [by eauto|done|].
    by eapply same_code_trans.
  - f_equal. by apply (IH st).
Qed.

(** X21: when every subscriber of [(T, k)] has a scheduler, an assignment
    of a new value evaluates the schedulers of the subscribers, all of
    them, in the order of the set, from the state with the value written,
    and evaluates none of their functions: what the assignment leaves is
    what the schedulers leave.  With schedulers that only read, and
    outside any effect, the assignment completes and leaves the
    dependency graph, the effect instances and the record of collected
    dependencies exactly as they were. *)
Theorem write_hands_over_to_schedulers (d p T : nat) (k : string) (v : value)
    (st : state) :
  proxies st !! p = Some T → activeEffect st = None →
  strict_eq (Reflect_get T k st) v = false →
  Forall (scheduled_reader st) (subscribers T k st) →
  (schedulers T k st).*1 = subscribers T k st
  ∧ eval (S (S d)) (Put (Lit (VProxy p)) k (Lit v)) st
    = and_then (schedule_in_order (S d) (schedulers T k st) (Reflect_set T k v st))
               (λ _ st', Some (Ret v, st'))
  ∧ ∃ o st' n, eval (S (S d)) (Put (Lit (VProxy p)) k (Lit v)) st = Some (o, st')
      ∧ targetMap st' = targetMap st ∧ sets st' = sets st
      ∧ effects st' = effects st ∧ collected st' = collected st
      ∧ fired st' = fired st ++ (Scheduled <$> take n (subscribers T k st))
      ∧ ∀ r, o = Ret r → r = v ∧ n = length (subscribers T k st).
Proof.
  intros Hp Ha Hne Hall.
  destruct (forEach_schedule_in_order (S d) st (subscribers T k st)
              (Reflect_set T k v st) Hall) as [Heq Hfst].
  { intros e eff He. by exists eff. }
  split; [exact Hfst|].
  change (eval (S (S d))) with (ev (eval (S d))).
  cbn [ev and_then]. rewrite Hp. unfold proxy_set. rewrite Hne. cbn [negb].
  rewrite trigger_forEach.
  rewrite (subscribers_same st (Reflect_set T k v st)) by done.
  split.
  - rewrite Heq. unfold schedulers.
    by destruct (schedule_in_order (S d) _ _) as [[[r|x] st1]|].
  - destruct (forEach_scheduled d (subscribers T k st) (Reflect_set T k v st) Ha Hall)
      as (o & st' & n & -> & Ht & Hs & He & _ & Hc & Hf & Hn).
    destruct o as [r|x]; cbn [and_then].
    + exists (Ret v), st', n. split_and!; try done.
      intros r' [= <-]. split; [done|]. by eapply Hn.
    + exists (Thrown x), st', n. by split_and!.
Qed.

(** A subscriber with a scheduler that sets a variable. *)
Lemma write_hands_over_to_schedulers_witness :
  (schedulers 0 "count" scheduled_registered).*1
  = subscribers 0 "count" scheduled_registered
  ∧ eval 2 (Put (Lit (VProxy 0)) "count" (Lit (VNum 1))) scheduled_registered
    = and_then (schedule_in_order 1 (schedulers 0 "count" scheduled_registered)
                  (Reflect_set 0 "count" (VNum 1) scheduled_registered))
               (λ _ st', Some (Ret (VNum 1), st'))
  ∧ ∃ o st' n, eval 2 (Put (Lit (VProxy 0)) "count" (Lit (VNum 1)))
                    scheduled_registered = Some (o, st')
      ∧ targetMap st' = targetMap scheduled_registered
      ∧ sets st' = sets scheduled_registered
      ∧ effects st' = effects scheduled_registered
      ∧ collected st' = collected scheduled_registered
      ∧ fired st' = fired scheduled_registered
                    ++ (Scheduled <$> take n (subscribers 0 "count" scheduled_registered))
      ∧ ∀ r, o = Ret r →
             r = VNum 1 ∧ n = length (subscribers 0 "count" scheduled_registered).
Proof.
  apply (write_hands_over_to_schedulers 0 0 0 "count" (VNum 1) scheduled_registered).
  - reflexivity.
  - reflexivity.
  - reflexivity.
  - change (subscribers 0 "count" scheduled_registered) with [0].
    repeat constructor. eexists _, _. split_and!; reflexivity.
Defined.

(** There the scheduler is evaluated and the function of the effect is
    not: the variable is set and no dependency is collected. *)
Lemma scheduled_registered_write :
  schedulers 0 "count" scheduled_registered
  = [(0, Assign "scheduled" (Lit (VBool true)))]
  ∧ vars scheduled_registered !! "scheduled" = None
  ∧ vars (state_after 2 (Put (Lit (VProxy 0)) "count" (Lit (VNum 1)))
            scheduled_registered) !! "scheduled" = Some (VBool true)
  ∧ collected_since scheduled_registered
      (state_after 2 (Put (Lit (VProxy 0)) "count" (Lit (VNum 1)))
         scheduled_registered) = [].
Proof. split_and!; vm_compute; reflexivity. Qed.

(** ** The proxy as a view of its target *)

(** X22: the proxy that [reactive] returns for a plain object is a view of
    that object: it is a proxy of that very target, a read of a key
    through it returns what the target holds, and a value assigned through
    it (here to a key without subscribers) is what a direct read of the
    target returns next. *)
Theorem proxy_is_a_view (d o : nat) (k : string) (v : value) (st : state) :
  proxies_consistent st → is_Some (heap st !! o) →
  truthy (Reflect_get o IS_REACTIVE st) = false →
  String.eqb k IS_REACTIVE = false →
  ∃ p st1, reactive (VObj o) st = (VProxy p, st1)
    ∧ proxies st1 !! p = Some o
    ∧ (∃ st2, eval (S d) (Get (Lit (VProxy p)) k) st1
              = Some (Ret (Reflect_get o k st), st2))
    ∧ (subscribers o k st = [] →
       ∃ st2, eval (S d) (Seq (Put (Lit (VProxy p)) k (Lit v))
                               (Get (Lit (VObj o)) k)) st1
              = Some (Ret v, st2)).
Proof.
  intros Hc [props Hprops] Hm Hk.
  assert (∃ p st1, reactive (VObj o) st = (VProxy p, st1)
            ∧ proxies st1 !! p = Some o ∧ heap st1 = heap st
            ∧ targetMap st1 = targetMap st ∧ sets st1 = sets st)
    as (p & st1 & Hre & Hp & Hh & Ht & Hs).
  { unfold reactive. simpl. rewrite Hm.
    destruct (reactiveMap st !! o) as [q|] eqn:Hq.
    - exists q, st. split_and!; [done| |done..]. by apply Hc.
    - eexists _, _. split_and!; [done| |done..]. simpl.
      by rewrite lookup_app_r, Nat.sub_diag by lia. }
  exists p, st1. split_and!; [done..| |].
  - simpl. rewrite Hp. unfold proxy_get. rewrite Hk.
    destruct (track_frame o k st1) as (Hh' & _).
    rewrite (Reflect_get_same st1 (track o k st1)) by done.
    rewrite (Reflect_get_same st st1) by done. by eexists.
  - intros Hsub. simpl. rewrite Hp. unfold proxy_set.
    assert (Hsub1 : subscribers o k (Reflect_set o k v st1) = []).
    { rewrite <- Hsub. by apply subscribers_same. }
    assert (Hread : Reflect_get o k (Reflect_set o k v st1) = v).
    { unfold Reflect_get. simpl. rewrite list_lookup_alter_eq, Hh, Hprops. simpl.
      by rewrite lookup_insert_eq. }
    destruct (negb _); simpl.
    + rewrite trigger_forEach, Hsub1. simpl. rewrite Hread. by eexists.
    + rewrite Hread. by eexists.
Qed.

(** The object of the package's test, before any effect is registered. *)
Lemma proxy_is_a_view_witness :
  ∃ p st1, reactive (VObj 0) observed_count = (VProxy p, st1)
    ∧ proxies st1 !! p = Some 0
    ∧ (∃ st2, eval 1 (Get (Lit (VProxy p)) "count") st1
              = Some (Ret (Reflect_get 0 "count" observed_count), st2))
    ∧ (subscribers 0 "count" observed_count = [] →
       ∃ st2, eval 1 (Seq (Put (Lit (VProxy p)) "count" (Lit (VNum 3)))
                          (Get (Lit (VObj 0)) "count")) st1
              = Some (Ret (VNum 3), st2)).
Proof.
  apply (proxy_is_a_view 0 0 "count" (VNum 3) observed_count).
  - apply (eval_proxies_consistent 1
             (Assign "observed" (Reactive (NewObj {[ "count" := VNum 0 ]})))
             empty_state (Ret (VProxy 0)) observed_count).
    + apply proxies_consistent_empty.
    + vm_compute. reflexivity.
  - eexists. reflexivity.
  - reflexivity.
  - reflexivity.
Defined.
